(** * Technical indicators, series alignment and performance score

    A shallow embedding of the computational core of the forecasting
    dashboard: the indicator functions of [TechnicalIndicators], the score of
    [PerformanceMetrics] and the series preparation of [CandlestickChart].

    JavaScript numbers are modelled as exact rationals extended with the IEEE
    special values [NaN], [+Infinity] and [-Infinity]: the outcome of a
    division by zero and the propagation of the special values follow the
    language, while rounding, overflow and the sign of zero are not modelled.
    Dates are instants that parse: [new Date(d).getTime()] is an integer
    number of milliseconds. The effects of the chart are taken once the chart
    is ready and its series exist. *)

From Stdlib Require Import String ZArith QArith Qabs Qround List Bool Lia Lqa.
From Stdlib Require Import Permutation Sorted.
Import ListNotations.

(* ===================================================================== *)
(** ** The JavaScript fragment the components use *)
(* ===================================================================== *)

Module JS.

(** A number: a finite value or one of the three special values. *)
Inductive num : Type :=
| Fin (q : Q)
| PInf
| NInf
| NaN.

(** The values a field of a JSON payload or an optional prop can hold. *)
Inductive jsval : Type :=
| Undefined
| Null
| Num (n : num).

Definition is_finite (a : num) : bool :=
  match a with Fin _ => true | _ => false end.

(** Sign of a number, [Eq] standing for zero (and for [NaN]). *)
Definition sign (a : num) : comparison :=
  match a with
  | Fin q => (q ?= 0)%Q
  | PInf => Gt
  | NInf => Lt
  | NaN => Eq
  end.

Definition sign_mul (c d : comparison) : comparison :=
  match c, d with
  | Eq, _ | _, Eq => Eq
  | Gt, Gt | Lt, Lt => Gt
  | _, _ => Lt
  end.

(** The infinity of a given sign; no sign gives [NaN]. *)
Definition inf_of_sign (c : comparison) : num :=
  match c with Gt => PInf | Lt => NInf | Eq => NaN end.

Definition num_neg (a : num) : num :=
  match a with
  | Fin q => Fin (- q)
  | PInf => NInf
  | NInf => PInf
  | NaN => NaN
  end.

(** [a + b] *)
Definition num_add (a b : num) : num :=
  match a, b with
  | NaN, _ | _, NaN => NaN
  | Fin x, Fin y => Fin (x + y)
  | PInf, NInf | NInf, PInf => NaN
  | PInf, _ | _, PInf => PInf
  | NInf, _ | _, NInf => NInf
  end.

(** [a - b] *)
Definition num_sub (a b : num) : num := num_add a (num_neg b).

(** [a * b] *)
Definition num_mul (a b : num) : num :=
  match a, b with
  | NaN, _ | _, NaN => NaN
  | Fin x, Fin y => Fin (x * y)
  | _, _ => inf_of_sign (sign_mul (sign a) (sign b))
  end.

(** [a / b]: a division by zero does not throw, it yields an infinity of
    the sign of the numerator, and [NaN] for [0 / 0]. *)
Definition num_div (a b : num) : num :=
  match a, b with
  | NaN, _ | _, NaN => NaN
  | Fin x, Fin y =>
      if Qeq_bool y 0 then inf_of_sign (x ?= 0)%Q else Fin (x / y)
  | Fin _, _ => Fin 0
  | _, Fin y =>
      inf_of_sign (sign_mul (sign a) (if Qeq_bool y 0 then Gt else (y ?= 0)%Q))
  | _, _ => NaN
  end.

(** [a < b]; every comparison with [NaN] is false. *)
Definition num_ltb (a b : num) : bool :=
  match a, b with
  | NaN, _ | _, NaN => false
  | Fin x, Fin y => match (x ?= y)%Q with Lt => true | _ => false end
  | NInf, NInf | PInf, _ | _, NInf => false
  | _, _ => true
  end.

(** [a > b] *)
Definition num_gtb (a b : num) : bool := num_ltb b a.

(** [a === b] on numbers. *)
Definition num_eqb (a b : num) : bool :=
  match a, b with
  | Fin x, Fin y => Qeq_bool x y
  | PInf, PInf | NInf, NInf => true
  | _, _ => false
  end.

(** A finite value in the closed interval from [lo] to [hi]. *)
Definition within (lo hi : Q) (a : num) : Prop :=
  match a with
  | Fin q => lo <= q <= hi
  | _ => False
  end.


(** [Math.abs] *)
Definition Math_abs (a : num) : num :=
  match a with
  | Fin q => Fin (Qabs q)
  | PInf | NInf => PInf
  | NaN => NaN
  end.

(** [Math.pow(a, 2)] *)
Definition Math_pow2 (a : num) : num := num_mul a a.

Definition max2 (a b : num) : num :=
  match a, b with
  | NaN, _ | _, NaN => NaN
  | _, _ => if num_ltb a b then b else a
  end.

Definition min2 (a b : num) : num :=
  match a, b with
  | NaN, _ | _, NaN => NaN
  | _, _ => if num_ltb b a then b else a
  end.

(** [Math.max(...l)]: [-Infinity] with no argument. *)
Definition Math_max (l : list num) : num := fold_left max2 l NInf.

(** [Math.min(...l)]: [+Infinity] with no argument. *)
Definition Math_min (l : list num) : num := fold_left min2 l PInf.

(** [Math.round] of a finite value: the nearest integer, halves upwards. *)
Definition Math_round (q : Q) : Z := Qfloor (q + (1 # 2)).

(** Number literals. *)
Definition lit (z : Z) : num := Fin (inject_Z z).

(** Conversion of a value to a number, as arithmetic and comparisons do. *)
Definition ToNumber (v : jsval) : num :=
  match v with
  | Undefined => NaN
  | Null => Fin 0
  | Num n => n
  end.

(** Truthiness: [undefined], [null], [0] and [NaN] are falsy. *)
Definition truthy (v : jsval) : bool :=
  match v with
  | Undefined | Null => false
  | Num (Fin q) => negb (Qeq_bool q 0)
  | Num NaN => false
  | Num _ => true
  end.

(** [a || b] *)
Definition js_or (a b : jsval) : jsval := if truthy a then a else b.

(** [v < c] and [v > c] against a numeric literal. *)
Definition js_lt (v : jsval) (c : Q) : bool := num_ltb (ToNumber v) (Fin c).
Definition js_gt (v : jsval) (c : Q) : bool := num_gtb (ToNumber v) (Fin c).

(** [l[i]] read as a number: beyond the end the read gives [undefined],
    which every arithmetic context of this code turns into [NaN]. *)
Definition get (l : list num) (i : Z) : num :=
  if (i <? 0)%Z then NaN else nth (Z.to_nat i) l NaN.

(** Exceptions and results of code that can throw. *)
Inductive exn : Type := TypeError.

Inductive result (A : Type) : Type :=
| Ok (a : A)
| Throw (e : exn).
Arguments Ok {A} a.
Arguments Throw {A} e.

Definition bind {A B} (r : result A) (k : A -> result B) : result B :=
  match r with
  | Ok a => k a
  | Throw e => Throw e
  end.

Notation "x <- c ;; k" := (bind c (fun x => k))
  (at level 61, c at next level, right associativity).

(** [l.reduce(f)] without initial value: throws on an empty array. *)
Definition reduce1 {A} (f : A -> A -> A) (l : list A) : result A :=
  match l with
  | [] => Throw TypeError
  | x :: xs => Ok (fold_left f xs x)
  end.

(** [l.reduce(f, init)] *)
Definition reduce {A B} (f : B -> A -> B) (init : B) (l : list A) : B :=
  fold_left f l init.

(** [l.slice(start, stop)]: a negative index counts from the end, and both
    are clamped to the array. *)
Definition slice {A} (l : list A) (start stop : Z) : list A :=
  let len := Z.of_nat (length l) in
  let k := if (start <? 0)%Z then Z.max (len + start) 0 else Z.min start len in
  let final := if (stop <? 0)%Z then Z.max (len + stop) 0 else Z.min stop len in
  firstn (Z.to_nat (final - k)) (skipn (Z.to_nat k) l).

(** The indices [lo], [lo + 1], ... below [hi] that a counting loop visits. *)
Definition range (lo hi : Z) : list Z :=
  map (fun k => (lo + Z.of_nat k)%Z) (seq 0 (Z.to_nat (hi - lo))).

(** A loop body run on each index in turn; the first throw ends the loop. *)
Fixpoint mapM {A B} (body : A -> result B) (l : list A) : result (list B) :=
  match l with
  | [] => Ok []
  | i :: l' =>
      x <- body i ;;
      xs <- mapM body l' ;;
      Ok (x :: xs)
  end.

(** [for (let i = lo; i < hi; i++) out.push(body(i))] *)
Definition for_push {A} (body : Z -> result A) (lo hi : Z) : result (list A) :=
  mapM body (range lo hi).

(** [l.length] *)
Definition len {A} (l : list A) : Z := Z.of_nat (length l).

(** [l[i]] as a value: [undefined] outside the array. *)
Definition get_val (l : list num) (i : Z) : jsval :=
  if (i <? 0)%Z then Undefined
  else match nth_error l (Z.to_nat i) with
       | Some n => Num n
       | None => Undefined
       end.

(** [Math.sqrt], over a square root [sqrtQ] of the finite non-negative
    values. *)
Definition Math_sqrt (sqrtQ : Q -> Q) (a : num) : num :=
  match a with
  | Fin q => if Qle_bool 0 q then Fin (sqrtQ q) else NaN
  | PInf => PInf
  | NInf | NaN => NaN
  end.

(** [l.map((x, i) => f x i)] *)
Fixpoint mapi_from {A B} (f : A -> Z -> B) (i : Z) (l : list A) : list B :=
  match l with
  | [] => []
  | x :: xs => f x i :: mapi_from f (i + 1) xs
  end.

Definition mapi {A B} (f : A -> Z -> B) (l : list A) : list B :=
  mapi_from f 0 l.

(** A [Map]: entries in the order in which their keys were first set. *)
Section JSMap.
Context {K V : Type} (key_eqb : K -> K -> bool).

(** [m.set(k, v)]: an existing key keeps its place and takes the value. *)
Fixpoint map_set (m : list (K * V)) (k : K) (v : V) : list (K * V) :=
  match m with
  | [] => [(k, v)]
  | (k', v') :: m' =>
      if key_eqb k k' then (k', v) :: m' else (k', v') :: map_set m' k v
  end.

(** [Array.from(m.values())] *)
Definition map_values (m : list (K * V)) : list V := map snd m.

(** [l.forEach(x => m.set(key x, val x))] *)
Definition map_set_all {A} (key : A -> K) (val : A -> V) (l : list A)
  (m : list (K * V)) : list (K * V) :=
  fold_left (fun m x => map_set m (key x) (val x)) l m.
End JSMap.

(** [Array.prototype.sort] with a comparator: the sort is stable, an
    element goes before the first one it does not compare greater than. *)
Section JSSort.
Context {A : Type} (cmp : A -> A -> Q).

Fixpoint sort_insert (x : A) (l : list A) : list A :=
  match l with
  | [] => [x]
  | y :: l' =>
      if Qle_bool (cmp x y) 0 then x :: y :: l' else y :: sort_insert x l'
  end.

Definition sort (l : list A) : list A := fold_right sort_insert [] l.
End JSSort.

(** [a >= b]; false as soon as one side is [NaN]. *)
Definition num_geb (a b : num) : bool :=
  match a, b with
  | NaN, _ | _, NaN => false
  | _, _ => negb (num_ltb a b)
  end.

(** The elements of an array with their indices, as [forEach] and [map]
    hand them to a callback. *)
Definition entries {A} (l : list A) : list (Z * A) :=
  combine (range 0 (len l)) l.

End JS.

Import JS.

(* ===================================================================== *)
(** ** PerformanceMetrics: the overall score *)
(* ===================================================================== *)

Module PerformanceMetrics.

(** The [metrics] prop; a missing field reads [Undefined]. *)
Record metrics : Type := {
  rmse : jsval;
  mae : jsval;
  mape : jsval;
  directional_accuracy : jsval
}.

(** [calculateOverallScore]; [None] is the [null] it returns. *)
Definition calculateOverallScore (m : metrics) : option Z :=
  if negb (truthy (rmse m)) || negb (truthy (mae m))
     || negb (truthy (mape m)) || negb (truthy (directional_accuracy m))
  then None
  else
    let score := 0%Q in
    (* RMSE scoring (lower is better) *)
    let score :=
      if js_lt (rmse m) 2 then score + 25
      else if js_lt (rmse m) 5 then score + 15
      else score + 5 in
    (* MAE scoring (lower is better) *)
    let score :=
      if js_lt (mae m) (3 # 2) then score + 25
      else if js_lt (mae m) 3 then score + 15
      else score + 5 in
    (* MAPE scoring (lower is better) *)
    let score :=
      if js_lt (mape m) 2 then score + 25
      else if js_lt (mape m) 5 then score + 15
      else score + 5 in
    (* Directional accuracy scoring (higher is better) *)
    let score :=
      if js_gt (directional_accuracy m) 65 then score + 25
      else if js_gt (directional_accuracy m) 55 then score + 15
      else score + 5 in
    Some (Math_round score).

(** The label shown under the score. *)
Definition overallLabel (overallScore : Z) : string :=
  if (overallScore >=? 80)%Z then "Excellent"
  else if (overallScore >=? 60)%Z then "Good"
  else "Needs Improvement".

(** A metric that is supplied: neither missing nor [null]. *)
Definition present (v : jsval) : bool :=
  match v with
  | Undefined | Null => false
  | Num _ => true
  end.

(** A metric that is supplied with a finite number. *)
Definition finite_metric (v : jsval) : bool :=
  match v with
  | Num (Fin _) => true
  | _ => false
  end.

(** [getMetricColor] *)
Definition getMetricColor (label : string) (value : jsval) : string :=
  if String.eqb label "RMSE" then
    if js_lt value 2 then "text-[#00ff9f]"
    else if js_lt value 5 then "text-[#00fff2]" else "text-[#ff4444]"
  else if String.eqb label "MAE" then
    if js_lt value (3 # 2) then "text-[#00ff9f]"
    else if js_lt value 3 then "text-[#00fff2]" else "text-[#ff4444]"
  else if String.eqb label "MAPE" then
    if js_lt value 2 then "text-[#00ff9f]"
    else if js_lt value 5 then "text-[#00fff2]" else "text-[#ff4444]"
  else if String.eqb label "Directional Accuracy" then
    if js_gt value 65 then "text-[#00ff9f]"
    else if js_gt value 55 then "text-[#00fff2]" else "text-[#ff4444]"
  else "text-white".

(** [getPerformanceLevel] *)
Definition getPerformanceLevel (label : string) (value : jsval) : string :=
  if String.eqb label "RMSE" then
    if js_lt value 2 then "Excellent"
    else if js_lt value 5 then "Good" else "Needs Improvement"
  else if String.eqb label "MAE" then
    if js_lt value (3 # 2) then "Excellent"
    else if js_lt value 3 then "Good" else "Needs Improvement"
  else if String.eqb label "MAPE" then
    if js_lt value 2 then "Excellent"
    else if js_lt value 5 then "Good" else "Needs Improvement"
  else if String.eqb label "Directional Accuracy" then
    if js_gt value 65 then "Excellent"
    else if js_gt value 55 then "Good" else "Needs Improvement"
  else "N/A".

(** The points the scorer gives for a metric rated at [level], to state
    that the score adds up the levels of the four cards. *)
Definition level_points (level : string) : Z :=
  if String.eqb level "Excellent" then 25
  else if String.eqb level "Good" then 15
  else 5.

End PerformanceMetrics.

(* ===================================================================== *)
(** ** TechnicalIndicators: RSI, EMA, MACD, Bollinger Bands, Stochastic *)
(* ===================================================================== *)

Module TechnicalIndicators.

(** Default arguments. *)
Definition RSI_period : Z := 14.
Definition MACD_fastPeriod : Z := 12.
Definition MACD_slowPeriod : Z := 26.
Definition MACD_signalPeriod : Z := 9.
Definition Bollinger_period : Z := 20.
Definition Bollinger_stdDev : num := lit 2.
Definition Stochastic_period : Z := 14.

(** [prices[i] - prices[i - 1]] *)
Definition change (prices : list num) (i : Z) : num :=
  num_sub (get prices i) (get prices (i - 1)).

Definition gains (prices : list num) : list num :=
  map (fun i => if num_gtb (change prices i) (lit 0)
                then change prices i else lit 0)
      (range 1 (len prices)).

Definition losses (prices : list num) : list num :=
  map (fun i => if num_ltb (change prices i) (lit 0)
                then Math_abs (change prices i) else lit 0)
      (range 1 (len prices)).

(** One iteration of the second loop of [calculateRSI]. *)
Definition rsi_at (gains losses : list num) (period : Z) (i : Z)
  : result num :=
  sumGain <- reduce1 num_add (slice gains (i - period + 1) (i + 1)) ;;
  let avgGain := num_div sumGain (lit period) in
  sumLoss <- reduce1 num_add (slice losses (i - period + 1) (i + 1)) ;;
  let avgLoss := num_div sumLoss (lit period) in
  if num_eqb avgLoss (lit 0) then Ok (lit 100)
  else
    let rs := num_div avgGain avgLoss in
    let rsi := num_sub (lit 100) (num_div (lit 100) (num_add (lit 1) rs)) in
    Ok rsi.

Definition calculateRSI (prices : list num) (period : Z)
  : result (list num) :=
  let gains := gains prices in
  let losses := losses prices in
  for_push (rsi_at gains losses period) (period - 1) (len gains).

(** The loop of [calculateEMA]: [prev] is [ema[i - 1]], the value pushed
    last. *)
Fixpoint ema_loop (multiplier prev : num) (rest : list num) : list num :=
  match rest with
  | [] => []
  | p :: rest' =>
      let e := num_add (num_mul p multiplier)
                       (num_mul prev (num_sub (lit 1) multiplier)) in
      e :: ema_loop multiplier e rest'
  end.

Definition calculateEMA (prices : list num) (period : Z) : list num :=
  let multiplier := num_div (lit 2) (num_add (lit period) (lit 1)) in
  let first := get prices 0 in
  first :: ema_loop multiplier first (tl prices).

Record macd : Type := {
  macdLine : list num;
  signalLine : list num;
  histogram : list num
}.

Definition calculateMACD (prices : list num)
  (fastPeriod slowPeriod signalPeriod : Z) : macd :=
  let emaFast := calculateEMA prices fastPeriod in
  let emaSlow := calculateEMA prices slowPeriod in
  let macdLine := mapi (fun fast i => num_sub fast (get emaSlow i)) emaFast in
  let signalLine := calculateEMA macdLine signalPeriod in
  let histogram :=
    mapi (fun macd i => num_sub macd (get signalLine i)) macdLine in
  {| macdLine := macdLine; signalLine := signalLine; histogram := histogram |}.

Record bands : Type := {
  sma : list num;
  upperBand : list num;
  lowerBand : list num
}.

(** Population variance of a window around [mean], as the loop computes it. *)
Definition variance_of (window : list num) (mean : num) (period : Z) : num :=
  num_div
    (reduce (fun a b => num_add a (Math_pow2 (num_sub b mean))) (lit 0) window)
    (lit period).

(** One iteration of the loop of [calculateBollingerBands]: the values
    pushed on [sma], [upperBand] and [lowerBand]. *)
Definition bollinger_at (sqrtQ : Q -> Q) (prices : list num) (period : Z)
  (stdDev : num) (i : Z) : result (num * num * num) :=
  let window := slice prices (i - period + 1) (i + 1) in
  sum <- reduce1 num_add window ;;
  let mean := num_div sum (lit period) in
  let variance := variance_of window mean period in
  let standardDeviation := Math_sqrt sqrtQ variance in
  Ok (mean,
      num_add mean (num_mul standardDeviation stdDev),
      num_sub mean (num_mul standardDeviation stdDev)).

Definition calculateBollingerBands (sqrtQ : Q -> Q) (prices : list num)
  (period : Z) (stdDev : num) : result bands :=
  rows <- for_push (bollinger_at sqrtQ prices period stdDev)
            (period - 1) (len prices) ;;
  Ok {| sma := map (fun r => fst (fst r)) rows;
        upperBand := map (fun r => snd (fst r)) rows;
        lowerBand := map snd rows |}.

(** One iteration of the loop of [calculateStochastic]. *)
Definition stochastic_at (highs lows closes : list num) (period : Z) (i : Z)
  : num :=
  let highSlice := slice highs (i - period + 1) (i + 1) in
  let lowSlice := slice lows (i - period + 1) (i + 1) in
  let close := get closes i in
  let highestHigh := Math_max highSlice in
  let lowestLow := Math_min lowSlice in
  num_mul
    (num_div (num_sub close lowestLow) (num_sub highestHigh lowestLow))
    (lit 100).

Definition calculateStochastic (highs lows closes : list num) (period : Z)
  : list num :=
  map (stochastic_at highs lows closes period) (range (period - 1) (len closes)).

(** A square root on the rationals, rounded down to the denominator, to run
    the Bollinger bands on concrete inputs. *)
Definition sqrt_down (q : Q) : Q :=
  Z.sqrt (Qnum q * Zpos (Qden q)) # Qden q.

(** The words of the specification on a window of finite values: its mean,
    and its population variance, whose divisor is the size of the window. *)
Definition Qsum (w : list Q) : Q := fold_right Qplus 0 w.

Definition mean_of (w : list Q) : Q := Qsum w / inject_Z (len w).

Definition population_variance (w : list Q) : Q :=
  Qsum (map (fun x => (x - mean_of w) * (x - mean_of w)) w) / inject_Z (len w).

End TechnicalIndicators.

(* ===================================================================== *)
(** ** CandlestickChart: normalised series, forecast band, portfolio line *)
(* ===================================================================== *)

Module CandlestickChart.

(** A price record; [date] is [new Date(d.date).getTime()]. *)
Record PricePoint : Type := {
  date : Z;
  open_price : num;
  high_price : num;
  low_price : num;
  close_price : num;
  volume : jsval
}.

(** A point handed to a chart series. *)
Record point : Type := {
  time : Q;
  value : jsval
}.

Record intervals : Type := {
  upper : list num;
  lower : list num
}.

Record forecast : Type := {
  predictions : list num;
  confidence_intervals : intervals
}.

Record PortfolioMetricPoint : Type := {
  metric_date : Z;
  total_value : jsval
}.

(** What an effect does to its series: [setData(l)], or nothing. *)
Inductive update : Type :=
| NoUpdate
| SetData (l : list point).

(** [new Date(d.date).getTime() / 1000] *)
Definition timeOf (d : PricePoint) : Q := inject_Z (date d) / 1000.

Definition filterDataByTimeRange (data : list PricePoint) : list PricePoint :=
  data.

(** [[...filteredData].sort((a, b) => new Date(a.date) - new Date(b.date))] *)
Definition sortedData (priceData : list PricePoint) : list PricePoint :=
  sort (fun a b => inject_Z (date a - date b))
       (filterDataByTimeRange priceData).

(** The series normaliser: the sorted records through a [Map] keyed by
    their time. *)
Definition uniqueData (priceData : list PricePoint) : list PricePoint :=
  let dataMap :=
    map_set_all Qeq_bool timeOf (fun item => item) (sortedData priceData) [] in
  map_values dataMap.

(** [uniqueData[uniqueData.length - 1]], whose [date] is then read. *)
Definition lastDataPoint (uniqueData : list PricePoint) : result PricePoint :=
  match nth_error uniqueData (length uniqueData - 1) with
  | Some p => Ok p
  | None => Throw TypeError
  end.

(** [lastTime + (index + 1) * 3600] *)
Definition forecastTime (lastTime : Q) (index : Z) : Q :=
  lastTime + inject_Z (index + 1) * 3600.

Definition by_time (a b : point) : Q := time a - time b.

(** The confidence series of the forecast effect, before it is sorted. *)
Definition confidenceMap (lastTime : Q) (forecasts : forecast)
  : list (Q * point) :=
  let n := len (predictions forecasts) in
  (* Add upper confidence bounds *)
  let confidenceMap :=
    map_set_all Qeq_bool
      (fun index => forecastTime lastTime index)
      (fun index =>
         {| time := forecastTime lastTime index;
            value := get_val (upper (confidence_intervals forecasts)) index |})
      (range 0 n) [] in
  (* Add lower confidence bounds (reverse order for area chart) *)
  map_set_all Qeq_bool
    (fun index => forecastTime lastTime (n - 1 - index))
    (fun index =>
       let reverseIndex := (n - 1 - index)%Z in
       {| time := forecastTime lastTime reverseIndex;
          value :=
            get_val (lower (confidence_intervals forecasts)) reverseIndex |})
    (range 0 n) confidenceMap.

(** The data the forecast effect sets on the confidence series. *)
Definition confidenceData (priceData : list PricePoint) (forecasts : forecast)
  : result update :=
  match priceData with
  | [] => Ok NoUpdate
  | _ =>
      let uniqueData := uniqueData priceData in
      lastDataPoint <- lastDataPoint uniqueData ;;
      let lastTime := timeOf lastDataPoint in
      let confidenceData := map_values (confidenceMap lastTime forecasts) in
      Ok (SetData (sort by_time confidenceData))
  end.

(** The nearest-point scan of the portfolio effect. *)
Definition closestPricePoint (first : PricePoint)
  (uniqueData : list PricePoint) (metricDate : Z) : PricePoint :=
  fst (fold_left
         (fun (st : PricePoint * Z) pricePoint =>
            let diff := Z.abs (date pricePoint - metricDate) in
            if (diff <? snd st)%Z then (pricePoint, diff) else st)
         uniqueData
         (first, Z.abs (date first - metricDate))).

(** The point one portfolio metric is mapped to; reading [uniqueData[0].date]
    throws on an empty series. *)
Definition portfolioPoint (uniqueData : list PricePoint)
  (initialCapital : jsval) (metric : PortfolioMetricPoint) : result point :=
  match uniqueData with
  | [] => Throw TypeError
  | first :: _ =>
      let metricDate := metric_date metric in
      let closestPricePoint := closestPricePoint first uniqueData metricDate in
      Ok {| time := timeOf closestPricePoint;
            value := js_or (total_value metric)
                           (js_or initialCapital (Num (lit 10000))) |}
  end.

Definition portfolioData (uniqueData : list PricePoint)
  (portfolioValueHistory : list PortfolioMetricPoint) (initialCapital : jsval)
  : result (list point) :=
  mapM (portfolioPoint uniqueData initialCapital) portfolioValueHistory.

(** The portfolio effect: what reaches the portfolio series. *)
Definition uniquePortfolioData (priceData : list PricePoint)
  (portfolioValueHistory : list PortfolioMetricPoint) (initialCapital : jsval)
  : result update :=
  match portfolioValueHistory with
  | [] => Ok (SetData [])
  | _ =>
      match priceData with
      | [] => Ok NoUpdate
      | _ =>
          let uniqueData := uniqueData priceData in
          portfolioData <-
            portfolioData uniqueData portfolioValueHistory initialCapital ;;
          let portfolioMap :=
            map_set_all Qeq_bool time (fun item => item) portfolioData [] in
          let uniquePortfolioData := sort by_time (map_values portfolioMap) in
          match uniquePortfolioData with
          | [] => Ok NoUpdate
          | _ => Ok (SetData uniquePortfolioData)
          end
      end
  end.

(** A bar of the candlestick series. *)
Module Candle.
Record t : Type := {
  time : Q;
  open : num;
  high : num;
  low : num;
  close : num
}.
End Candle.

(** A bar of the volume histogram. *)
Module VolumeBar.
Record t : Type := {
  time : Q;
  value : jsval;
  color : string
}.
End VolumeBar.

(** Convert price data to candlestick format. *)
Definition candlestickData (uniqueData : list PricePoint) : list Candle.t :=
  map (fun d =>
         {| Candle.time := timeOf d;
            Candle.open := open_price d;
            Candle.high := high_price d;
            Candle.low := low_price d;
            Candle.close := close_price d |})
      uniqueData.

(** One bar of volume. *)
Definition volumeBar (d : PricePoint) : VolumeBar.t :=
  {| VolumeBar.time := timeOf d;
     VolumeBar.value := js_or (volume d) (Num (lit 0));
     VolumeBar.color :=
       if num_geb (close_price d) (open_price d)
       then "#00ff9f" else "#ff4444" |}.

(** Convert volume data with deduplication. *)
Definition volumeData (uniqueData : list PricePoint) : list VolumeBar.t :=
  let volumeMap := map_set_all Qeq_bool timeOf volumeBar uniqueData [] in
  map_values volumeMap.

(** The price effect: the data set on the candlestick and on the volume
    series; nothing on an empty [priceData]. *)
Definition updateChartData (priceData : list PricePoint)
  : option (list Candle.t * list VolumeBar.t) :=
  match priceData with
  | [] => None
  | _ =>
      let uniqueData := uniqueData priceData in
      Some (candlestickData uniqueData, volumeData uniqueData)
  end.

(** The forecast line of the forecast effect, before it is sorted. *)
Definition forecastMap (lastTime : Q) (forecasts : forecast)
  : list (Q * point) :=
  map_set_all Qeq_bool
    (fun e : Z * num => forecastTime lastTime (fst e))
    (fun e : Z * num =>
       {| time := forecastTime lastTime (fst e); value := Num (snd e) |})
    (entries (predictions forecasts)) [].

(** The data the forecast effect sets on the forecast series. *)
Definition forecastData (priceData : list PricePoint) (forecasts : forecast)
  : result update :=
  match priceData with
  | [] => Ok NoUpdate
  | _ =>
      let uniqueData := uniqueData priceData in
      lastDataPoint <- lastDataPoint uniqueData ;;
      let lastTime := timeOf lastDataPoint in
      let forecastData := map_values (forecastMap lastTime forecasts) in
      Ok (SetData (sort by_time forecastData))
  end.

Record PredictionError : Type := {
  prediction_index : Z;
  error_value : num
}.

(** The error overlay effect; [forecasts] is [None] when the prop is not
    set. *)
Definition errorData (priceData : list PricePoint)
  (forecasts : option forecast) (predictionErrors : list PredictionError)
  : result update :=
  match predictionErrors with
  | [] => Ok (SetData [])
  | _ =>
      match forecasts, priceData with
      | None, _ | _, [] => Ok NoUpdate
      | Some _, _ =>
          let uniqueData := uniqueData priceData in
          lastDataPoint <- lastDataPoint uniqueData ;;
          let lastTime := timeOf lastDataPoint in
          Ok (SetData
                (map (fun error =>
                        {| time := lastTime
                                   + inject_Z (prediction_index error + 1)
                                     * 3600;
                           value := Num (error_value error) |})
                     predictionErrors))
      end
  end.

End CandlestickChart.

(* ===================================================================== *)
(** ** TechnicalIndicators: the effect that fills the indicator charts *)
(* ===================================================================== *)

Module IndicatorPanel.

Import TechnicalIndicators.
Import CandlestickChart.

(** A row of [chartData]; its [date] label, a string in the format of the
    locale, is left out. *)
Module ChartRow.
Record t : Type := {
  timestamp : Z;
  price : num;
  volume : jsval;
  rsi : jsval;
  macd : jsval;
  signal : jsval;
  histogram : jsval;
  bbUpper : jsval;
  bbMiddle : jsval;
  bbLower : jsval;
  stochastic : jsval
}.
End ChartRow.

(** What [setIndicators] receives. *)
Record indicators : Type := {
  rsi : list num;
  macd : TechnicalIndicators.macd;
  bollinger : bands;
  stochastic : list num;
  chartData : list ChartRow.t
}.

(** Prepare data for charts: the rows from the twentieth bar on, each with
    the samples at its own index. *)
Definition prepareChartData (priceData : list PricePoint) (rsi : list num)
  (macd : TechnicalIndicators.macd) (bollinger : bands)
  (stochastic : list num) : list ChartRow.t :=
  map (fun e : Z * PricePoint =>
         let i := fst e in
         let d := snd e in
         {| ChartRow.timestamp := date d;
            ChartRow.price := close_price d;
            ChartRow.volume := js_or (CandlestickChart.volume d) (Num (lit 0));
            ChartRow.rsi := js_or (get_val rsi i) Null;
            ChartRow.macd := js_or (get_val (macdLine macd) i) Null;
            ChartRow.signal := js_or (get_val (signalLine macd) i) Null;
            ChartRow.histogram :=
              js_or (get_val (TechnicalIndicators.histogram macd) i) Null;
            ChartRow.bbUpper := js_or (get_val (upperBand bollinger) i) Null;
            ChartRow.bbMiddle := js_or (get_val (sma bollinger) i) Null;
            ChartRow.bbLower := js_or (get_val (lowerBand bollinger) i) Null;
            ChartRow.stochastic := js_or (get_val stochastic i) Null |})
      (entries (slice priceData 19 (len priceData))).

(** The effect on [priceData]: [None] when it returns at once, on fewer
    than twenty bars. *)
Definition calculateIndicators (sqrtQ : Q -> Q) (priceData : list PricePoint)
  : result (option indicators) :=
  if (len priceData <? 20)%Z then Ok None
  else
    let closes := map close_price priceData in
    let highs := map high_price priceData in
    let lows := map low_price priceData in
    rsi <- calculateRSI closes RSI_period ;;
    let macd :=
      calculateMACD closes MACD_fastPeriod MACD_slowPeriod MACD_signalPeriod in
    bollinger <-
      calculateBollingerBands sqrtQ closes Bollinger_period Bollinger_stdDev ;;
    let stochastic := calculateStochastic highs lows closes Stochastic_period in
    let chartData := prepareChartData priceData rsi macd bollinger stochastic in
    Ok (Some {| rsi := rsi; macd := macd; bollinger := bollinger;
                stochastic := stochastic; chartData := chartData |}).

End IndicatorPanel.

(* ===================================================================== *)
(** ** Facts about the overall score *)
(* ===================================================================== *)

Section OverallScore.
Import PerformanceMetrics.

Local Open Scope Z_scope.

(** The guard of the scorer tests truthiness: the score is defined exactly
    when none of the four metrics is falsy. *)
Lemma calculateOverallScore_defined_iff (m : metrics) :
  calculateOverallScore m <> None <->
  truthy (rmse m) && truthy (mae m) && truthy (mape m)
    && truthy (directional_accuracy m) = true.
Proof.
  unfold calculateOverallScore.
  destruct (truthy (rmse m)), (truthy (mae m)), (truthy (mape m)),
    (truthy (directional_accuracy m)); simpl;
    split; intro H; try reflexivity; try discriminate; try (now elim H).
Qed.

(** A metric that is missing or [null] leaves the score undefined: the
    result is [null], neither zero nor a partial sum. *)
Lemma calculateOverallScore_missing (m : metrics) :
  present (rmse m) && present (mae m) && present (mape m)
    && present (directional_accuracy m) = false ->
  calculateOverallScore m = None.
Proof.
  intro H.
  destruct (calculateOverallScore m) eqn:E; [|reflexivity].
  assert (D : calculateOverallScore m <> None) by (rewrite E; discriminate).
  apply calculateOverallScore_defined_iff in D.
  assert (T : forall v, truthy v = true -> present v = true)
    by (intros [| |n]; simpl; intro; congruence).
  apply andb_prop in D as [D Hd]. apply andb_prop in D as [D Hc].
  apply andb_prop in D as [Ha Hb].
  rewrite (T _ Ha), (T _ Hb), (T _ Hc), (T _ Hd) in H. discriminate.
Qed.

(** Past the guard the score is one of 20, 30, ..., 100. *)
Lemma calculateOverallScore_range (m : metrics) :
  truthy (rmse m) && truthy (mae m) && truthy (mape m)
    && truthy (directional_accuracy m) = true ->
  exists k, 0 <= k <= 8 /\ calculateOverallScore m = Some (20 + 10 * k).
Proof.
  intro H. unfold calculateOverallScore.
  apply andb_prop in H as [H Hd]. apply andb_prop in H as [H Hc].
  apply andb_prop in H as [Ha Hb].
  rewrite Ha, Hb, Hc, Hd. cbn [negb orb].
  destruct (js_lt (rmse m) 2), (js_lt (rmse m) 5),
    (js_lt (mae m) (3 # 2)), (js_lt (mae m) 3),
    (js_lt (mape m) 2), (js_lt (mape m) 5),
    (js_gt (directional_accuracy m) 65), (js_gt (directional_accuracy m) 55);
    cbv zeta;
    match goal with
    | |- exists k, _ /\ Some ?s = _ =>
        let v := eval vm_compute in ((s - 20) / 10) in
        exists v; split; [lia | vm_compute; reflexivity]
    end.
Qed.

(** The first end-to-end scenario of the specification: four excellent
    metrics score 100, labelled "Excellent". *)
Lemma calculateOverallScore_all_excellent :
  calculateOverallScore
    {| rmse := Num (Fin (3 # 2)); mae := Num (Fin 1);
       mape := Num (Fin (3 # 2)); directional_accuracy := Num (Fin 70) |}
  = Some 100
  /\ overallLabel 100 = "Excellent"%string.
Proof. split; reflexivity. Qed.

(** The second scenario: four poor metrics score the floor, 20. *)
Lemma calculateOverallScore_all_poor :
  calculateOverallScore
    {| rmse := Num (Fin 6); mae := Num (Fin 4);
       mape := Num (Fin 6); directional_accuracy := Num (Fin 50) |}
  = Some 20
  /\ overallLabel 20 = "Needs Improvement"%string.
Proof. split; reflexivity. Qed.

(** C2, at the input where the code departs from it: a directional
    accuracy of 0 is supplied and is not [null], and the other three
    metrics are excellent, yet the scorer returns [null] where the claim
    gives a score (25 + 25 + 25 + 5 = 80). *)
Theorem overall_score_null_on_zero_directional_accuracy :
  let m := {| rmse := Num (Fin (3 # 2)); mae := Num (Fin 1);
              mape := Num (Fin (3 # 2));
              directional_accuracy := Num (Fin 0) |} in
  present (rmse m) && present (mae m) && present (mape m)
    && present (directional_accuracy m) = true
  /\ calculateOverallScore m = None.
Proof. intro m. split; reflexivity. Qed.

(** C7, at the input where the code departs from it: four finite metrics,
    the RMSE being a perfect 0, give no score at all instead of a member
    of 20, 30, ..., 100. *)
Theorem overall_score_null_on_zero_rmse :
  let m := {| rmse := Num (Fin 0); mae := Num (Fin 1);
              mape := Num (Fin (3 # 2));
              directional_accuracy := Num (Fin 70) |} in
  finite_metric (rmse m) && finite_metric (mae m) && finite_metric (mape m)
    && finite_metric (directional_accuracy m) = true
  /\ calculateOverallScore m = None.
Proof. intro m. split; reflexivity. Qed.

End OverallScore.

(* ===================================================================== *)
(** ** Facts about the JavaScript fragment *)
(* ===================================================================== *)

Section Arrays.
Local Open Scope Z_scope.

Lemma len_nonneg {A} (l : list A) : 0 <= len l.
Proof. unfold len. lia. Qed.

Lemma len_map {A B} (f : A -> B) (l : list A) : len (map f l) = len l.
Proof. unfold len. now rewrite length_map. Qed.

Lemma range_length (lo hi : Z) : length (range lo hi) = Z.to_nat (hi - lo).
Proof. unfold range. now rewrite length_map, length_seq. Qed.

Lemma len_range (lo hi : Z) : lo <= hi -> len (range lo hi) = hi - lo.
Proof. intro. unfold len. rewrite range_length. lia. Qed.

Lemma range_empty (lo hi : Z) : hi <= lo -> range lo hi = [].
Proof.
  intro H. unfold range. replace (Z.to_nat (hi - lo)) with O by lia.
  reflexivity.
Qed.

Lemma In_range (lo hi i : Z) : In i (range lo hi) <-> lo <= i < hi.
Proof.
  unfold range. rewrite in_map_iff. split.
  - intros (k & <- & Hk). apply in_seq in Hk. lia.
  - intro H. exists (Z.to_nat (i - lo)). split; [lia|].
    apply in_seq. lia.
Qed.

Lemma nth_range (lo hi : Z) (k : nat) (d : Z) :
  (k < Z.to_nat (hi - lo))%nat -> nth k (range lo hi) d = lo + Z.of_nat k.
Proof.
  intro H. unfold range.
  set (f := fun k : nat => lo + Z.of_nat k).
  rewrite nth_indep with (d' := f O)
    by (rewrite length_map, length_seq; exact H).
  rewrite map_nth, seq_nth by exact H. reflexivity.
Qed.

Lemma nth_map_in {A B} (f : A -> B) (l : list A) (k : nat) (da : A) (db : B) :
  (k < length l)%nat -> nth k (map f l) db = f (nth k l da).
Proof.
  intro H. rewrite nth_indep with (d' := f da) by (now rewrite length_map).
  apply map_nth.
Qed.

Lemma nth_map_range {B} (f : Z -> B) (lo hi : Z) (k : nat) (d : B) :
  (k < Z.to_nat (hi - lo))%nat ->
  nth k (map f (range lo hi)) d = f (lo + Z.of_nat k).
Proof.
  intro H.
  rewrite nth_indep with (d' := f 0)
    by (rewrite length_map, range_length; exact H).
  rewrite map_nth. f_equal. now apply nth_range.
Qed.

Lemma mapi_from_length {A B} (f : A -> Z -> B) (l : list A) (i : Z) :
  length (mapi_from f i l) = length l.
Proof.
  revert i. induction l as [|x l IH]; intro i; simpl; [reflexivity|].
  now rewrite IH.
Qed.

Lemma mapi_from_nth {A B} (f : A -> Z -> B) (l : list A) (i : Z)
  (k : nat) (da : A) (db : B) :
  (k < length l)%nat ->
  nth k (mapi_from f i l) db = f (nth k l da) (i + Z.of_nat k).
Proof.
  revert i k. induction l as [|x l IH]; intros i k H; simpl in *; [lia|].
  destruct k as [|k].
  - now rewrite Z.add_0_r.
  - rewrite (IH (i + 1) k) by lia. f_equal. lia.
Qed.

(** Reading inside the array. *)
Lemma get_nth (l : list num) (i : Z) :
  0 <= i < len l -> get l i = nth (Z.to_nat i) l NaN.
Proof.
  intros [H _]. unfold get.
  destruct (i <? 0) eqn:E; [apply Z.ltb_lt in E; lia | reflexivity].
Qed.

Lemma get_map_Fin (qs : list Q) (i : Z) :
  0 <= i < len qs -> get (map Fin qs) i = Fin (nth (Z.to_nat i) qs 0%Q).
Proof.
  intro H. rewrite get_nth by (now rewrite len_map).
  rewrite nth_indep with (d' := Fin 0%Q).
  - apply map_nth.
  - rewrite length_map. unfold len in H. lia.
Qed.

(** A slice inside the array. *)
Lemma slice_inside {A} (l : list A) (a b : Z) :
  0 <= a -> a <= b -> b <= len l ->
  slice l a b = firstn (Z.to_nat (b - a)) (skipn (Z.to_nat a) l).
Proof.
  intros Ha Hab Hb. unfold slice. fold (len l).
  destruct (a <? 0) eqn:Ea; [apply Z.ltb_lt in Ea; lia|].
  destruct (b <? 0) eqn:Eb; [apply Z.ltb_lt in Eb; lia|].
  rewrite !Z.min_l by lia. reflexivity.
Qed.

Lemma slice_length {A} (l : list A) (a b : Z) :
  0 <= a -> a <= b -> b <= len l -> len (slice l a b) = b - a.
Proof.
  intros Ha Hab Hb. rewrite slice_inside by assumption.
  unfold len in *. rewrite length_firstn, length_skipn. lia.
Qed.

Lemma slice_map {A B} (f : A -> B) (l : list A) (a b : Z) :
  slice (map f l) a b = map f (slice l a b).
Proof.
  unfold slice. rewrite length_map.
  now rewrite <- firstn_map, <- skipn_map.
Qed.

Lemma slice_nth {A} (l : list A) (a b : Z) (k : nat) (d : A) :
  0 <= a -> a <= b -> b <= len l -> (k < Z.to_nat (b - a))%nat ->
  nth k (slice l a b) d = nth (Z.to_nat a + k) l d.
Proof.
  intros Ha Hab Hb Hk. rewrite slice_inside by assumption.
  rewrite nth_firstn.
  destruct (k <? Z.to_nat (b - a))%nat eqn:E;
    [| apply Nat.ltb_ge in E; lia].
  apply nth_skipn.
Qed.




(** A loop whose body succeeds at every index succeeds, and relates each
    index to the value pushed for it. *)
Lemma mapM_total {A B} (body : A -> result B) (P : A -> B -> Prop)
  (l : list A) :
  (forall i, In i l -> exists x, body i = Ok x /\ P i x) ->
  exists xs, mapM body l = Ok xs /\ Forall2 P l xs.
Proof.
  induction l as [|i l IH]; intro H; simpl.
  - exists []. split; [reflexivity | constructor].
  - destruct (H i (or_introl eq_refl)) as (x & Ex & Px).
    destruct IH as (xs & Exs & Pxs); [intros j Hj; apply H; now right|].
    exists (x :: xs). rewrite Ex, Exs. simpl. split; [reflexivity|].
    now constructor.
Qed.

Lemma Forall2_length_eq {A B} (P : A -> B -> Prop) l xs :
  Forall2 P l xs -> length xs = length l.
Proof. induction 1; simpl; congruence. Qed.

Lemma Forall2_nth {A B} (P : A -> B -> Prop) l xs (k : nat) da db :
  Forall2 P l xs -> (k < length l)%nat -> P (nth k l da) (nth k xs db).
Proof.
  intro H. revert k. induction H as [|a b l xs Hab H IH]; intros k Hk;
    simpl in *; [lia|].
  destruct k as [|k]; [exact Hab | apply IH; lia].
Qed.


End Arrays.

Section Numbers.
Local Open Scope Q_scope.

Lemma inject_Z_nonzero (p : Z) : (1 <= p)%Z -> Qeq_bool (inject_Z p) 0 = false.
Proof.
  intro H. destruct (Qeq_bool (inject_Z p) 0) eqn:E; [|reflexivity].
  apply Qeq_bool_iff in E. unfold Qeq in E. simpl in E. lia.
Qed.

Lemma inject_Z_pos (p : Z) : (1 <= p)%Z -> 0 < inject_Z p.
Proof. intro H. unfold Qlt. simpl. lia. Qed.

Lemma num_div_Fin_lit (a : Q) (p : Z) :
  (1 <= p)%Z -> num_div (Fin a) (lit p) = Fin (a / inject_Z p).
Proof. intro H. unfold lit. simpl. now rewrite inject_Z_nonzero. Qed.

Lemma Qdiv_nonneg (a c : Q) : 0 <= a -> 0 < c -> 0 <= a / c.
Proof. intros Ha Hc. apply Qle_shift_div_l; [exact Hc | lra]. Qed.


Lemma fold_add_Fin (qs : list Q) (a : Q) :
  fold_left num_add (map Fin qs) (Fin a) = Fin (fold_left Qplus qs a).
Proof.
  revert a. induction qs as [|q qs IH]; intro a; simpl; [reflexivity|].
  apply IH.
Qed.






End Numbers.

(* ===================================================================== *)
(** ** Facts about the indicators *)
(* ===================================================================== *)

Section RSI.
Import TechnicalIndicators.
Local Open Scope Z_scope.

Lemma change_Fin (ps : list Q) (i : Z) :
  1 <= i < len ps ->
  change (map Fin ps) i
  = Fin (nth (Z.to_nat i) ps 0%Q + - nth (Z.to_nat (i - 1)) ps 0%Q).
Proof.
  intro H. unfold change. rewrite !get_map_Fin by lia. reflexivity.
Qed.



Lemma len_gains (prices : list num) :
  len (gains prices) = Z.max 0 (len prices - 1).
Proof.
  unfold gains. rewrite len_map. unfold len. rewrite range_length. lia.
Qed.

Lemma len_losses (prices : list num) :
  len (losses prices) = Z.max 0 (len prices - 1).
Proof.
  unfold losses. rewrite len_map. unfold len. rewrite range_length. lia.
Qed.


(** A strictly increasing step has no loss. *)
Lemma losses_zero_of_increase (ps : list Q) (j : Z) :
  0 <= j -> j + 1 < len ps ->
  (nth (Z.to_nat j) ps 0 < nth (Z.to_nat (j + 1)) ps 0)%Q ->
  num_eqb (get (losses (map Fin ps)) j) (lit 0) = true.
Proof.
  intros Hj Hl Hlt.
  rewrite get_nth by (rewrite len_losses, len_map; lia).
  unfold losses. rewrite nth_map_range by (rewrite len_map; lia).
  rewrite change_Fin by lia.
  replace (Z.to_nat (1 + Z.of_nat (Z.to_nat j))) with (Z.to_nat (j + 1))
    by lia.
  replace (Z.to_nat (1 + Z.of_nat (Z.to_nat j) - 1)) with (Z.to_nat j)
    by lia.
  set (c := (_ + - _)%Q). change (lit 0) with (Fin 0%Q). cbn [num_ltb].
  destruct (c ?= 0)%Q eqn:E; try reflexivity.
  apply Qlt_alt in E. subst c. lra.
Qed.



(** The scenario of the specification: fifteen closes and period 14 give
    one sample, strictly between 0 and 100. *)
Example calculateRSI_scenario :
  exists q,
    calculateRSI
      (map Fin [44; 44.25; 44.5; 43.75; 44.65; 45.1; 45.42; 45.84; 46.08;
                45.89; 46.03; 45.61; 46.28; 46.28; 46]%Q) RSI_period
    = Ok [Fin q] /\ (0 < q < 100)%Q.
Proof. eexists. split; [vm_compute; reflexivity | split; reflexivity]. Qed.

End RSI.

Section MACD.
Import TechnicalIndicators.
Local Open Scope Z_scope.

Lemma ema_loop_length (multiplier prev : num) (rest : list num) :
  length (ema_loop multiplier prev rest) = length rest.
Proof.
  revert prev. induction rest as [|p rest IH]; intro prev; simpl;
    [reflexivity | now rewrite IH].
Qed.

(** The output of the EMA has one value more than the tail of its input:
    as many as the input when this one is not empty, and one for an empty
    input. *)
Lemma calculateEMA_length (prices : list num) (period : Z) :
  length (calculateEMA prices period) = S (length (tl prices)).
Proof. unfold calculateEMA. simpl. now rewrite ema_loop_length. Qed.

Lemma calculateEMA_len (prices : list num) (period : Z) :
  prices <> [] -> len (calculateEMA prices period) = len prices.
Proof.
  intro H. unfold len. rewrite calculateEMA_length.
  destruct prices; [contradiction | reflexivity].
Qed.

Lemma len_mapi {A B} (f : A -> Z -> B) (l : list A) : len (mapi f l) = len l.
Proof. unfold len, mapi. now rewrite mapi_from_length. Qed.

Lemma len_nonempty {A} (l : list A) : 0 < len l -> l <> [].
Proof. intros H ->. unfold len in H. simpl in H. lia. Qed.

(** The three lines of the MACD have the length of non-empty closes. *)
Lemma calculateMACD_len (closes : list num)
  (fastPeriod slowPeriod signalPeriod : Z) :
  closes <> [] ->
  let m := calculateMACD closes fastPeriod slowPeriod signalPeriod in
  len (macdLine m) = len closes /\
  len (signalLine m) = len closes /\
  len (histogram m) = len closes.
Proof.
  intro Hne. cbn zeta. unfold calculateMACD.
  cbn [macdLine signalLine histogram].
  set (line := mapi _ (calculateEMA closes fastPeriod)).
  assert (L : len line = len closes).
  { unfold line. rewrite len_mapi. now apply calculateEMA_len. }
  assert (Lne : line <> []).
  { apply len_nonempty. rewrite L.
    destruct closes; [contradiction | unfold len; simpl; lia]. }
  repeat split.
  - exact L.
  - now rewrite calculateEMA_len.
  - now rewrite len_mapi.
Qed.

(** C6. On non-empty closes the EMA keeps the length of its input and
    starts from the first close; the three lines of the MACD have the
    length of the closes, and the histogram is at every index the MACD
    line minus the signal line. *)
Theorem calculateMACD_lengths (closes : list num)
  (fastPeriod slowPeriod signalPeriod : Z) :
  closes <> [] ->
  (forall period,
      len (calculateEMA closes period) = len closes /\
      get (calculateEMA closes period) 0 = get closes 0) /\
  let m := calculateMACD closes fastPeriod slowPeriod signalPeriod in
  len (macdLine m) = len closes /\
  len (signalLine m) = len closes /\
  len (histogram m) = len closes /\
  forall i, 0 <= i < len closes ->
    get (histogram m) i = num_sub (get (macdLine m) i) (get (signalLine m) i).
Proof.
  intro Hne. split.
  - intro period. split; [now apply calculateEMA_len | reflexivity].
  - cbn zeta.
    destruct (calculateMACD_len closes fastPeriod slowPeriod signalPeriod
                Hne) as (L & S & H).
    repeat split; try assumption.
    intros i Hi. revert L S H. unfold calculateMACD.
    cbn [macdLine signalLine histogram].
    set (line := mapi _ (calculateEMA closes fastPeriod)).
    intros L S H.
    rewrite (get_nth (mapi _ line)) by (rewrite len_mapi; lia).
    unfold mapi at 1.
    rewrite mapi_from_nth with (da := NaN) by (unfold len in *; lia).
    rewrite <- get_nth by lia.
    replace (0 + Z.of_nat (Z.to_nat i)) with i by lia. reflexivity.
Qed.

Lemma calculateMACD_lengths_witness :
  [lit 1; lit 2] <> [] /\
  ((forall period,
      len (calculateEMA [lit 1; lit 2] period) = len [lit 1; lit 2] /\
      get (calculateEMA [lit 1; lit 2] period) 0 = get [lit 1; lit 2] 0) /\
   let m := calculateMACD [lit 1; lit 2]
              MACD_fastPeriod MACD_slowPeriod MACD_signalPeriod in
   len (macdLine m) = len [lit 1; lit 2] /\
   len (signalLine m) = len [lit 1; lit 2] /\
   len (histogram m) = len [lit 1; lit 2] /\
   forall i, 0 <= i < len [lit 1; lit 2] ->
     get (histogram m) i
     = num_sub (get (macdLine m) i) (get (signalLine m) i)).
Proof.
  split; [discriminate|].
  apply (calculateMACD_lengths [lit 1; lit 2]). discriminate.
Defined.

End MACD.

Section ShortInput.
Import TechnicalIndicators.
Local Open Scope Z_scope.

(** The claim of an empty output fails for the MACD: one close is shorter
    than each of its three periods, and the three lines hold one value. *)
Lemma calculateMACD_short_input_not_empty :
  len [lit 1] < MACD_fastPeriod /\
  len [lit 1] < MACD_slowPeriod /\
  len [lit 1] < MACD_signalPeriod /\
  calculateMACD [lit 1] MACD_fastPeriod MACD_slowPeriod MACD_signalPeriod
  = {| macdLine := [Fin 0]; signalLine := [Fin 0]; histogram := [Fin 0] |}.
Proof. repeat split. Qed.

(** C3, amended. On closes shorter than the period the RSI, the Bollinger
    bands and the stochastic oscillator return empty outputs and do not
    throw; the MACD has no lookback cut-off: on non-empty closes of any
    length its three lines have the length of the closes. *)
Theorem short_input_outputs (sqrtQ : Q -> Q)
  (highs lows closes : list num) (period : Z) (stdDev : num)
  (fastPeriod slowPeriod signalPeriod : Z) :
  len closes < period ->
  calculateRSI closes period = Ok [] /\
  calculateBollingerBands sqrtQ closes period stdDev
  = Ok {| sma := []; upperBand := []; lowerBand := [] |} /\
  calculateStochastic highs lows closes period = [] /\
  (closes <> [] ->
   let m := calculateMACD closes fastPeriod slowPeriod signalPeriod in
   len (macdLine m) = len closes /\
   len (signalLine m) = len closes /\
   len (histogram m) = len closes).
Proof.
  intro H. assert (N := len_nonneg closes). repeat split.
  - unfold calculateRSI, for_push.
    rewrite range_empty by (rewrite len_gains; lia). reflexivity.
  - unfold calculateBollingerBands, for_push.
    rewrite range_empty by lia. reflexivity.
  - unfold calculateStochastic. rewrite range_empty by lia. reflexivity.
  - now apply (calculateMACD_len closes fastPeriod slowPeriod signalPeriod).
  - now apply (calculateMACD_len closes fastPeriod slowPeriod signalPeriod).
  - now apply (calculateMACD_len closes fastPeriod slowPeriod signalPeriod).
Qed.

Lemma short_input_outputs_witness :
  len [lit 1; lit 2] < 14 /\
  calculateRSI [lit 1; lit 2] 14 = Ok [] /\
  calculateBollingerBands sqrt_down [lit 1; lit 2] 14 (lit 2)
  = Ok {| sma := []; upperBand := []; lowerBand := [] |} /\
  calculateStochastic [lit 3; lit 4] [lit 0; lit 1] [lit 1; lit 2] 14 = [] /\
  ([lit 1; lit 2] <> [] ->
   let m := calculateMACD [lit 1; lit 2] 12 26 9 in
   len (macdLine m) = len [lit 1; lit 2] /\
   len (signalLine m) = len [lit 1; lit 2] /\
   len (histogram m) = len [lit 1; lit 2]).
Proof.
  split; [reflexivity|].
  apply (short_input_outputs sqrt_down [lit 3; lit 4] [lit 0; lit 1]
           [lit 1; lit 2] 14 (lit 2) 12 26 9).
  reflexivity.
Defined.

End ShortInput.


Section Stochastic.
Import TechnicalIndicators.
Local Open Scope Z_scope.

(** A window whose highest high is its lowest low: the quotient is taken all
    the same, and the sample is [NaN] or an infinity. *)
Lemma stochastic_at_flat (highs lows closes : list num) (period i : Z)
  (h l : Q) :
  Math_max (slice highs (i - period + 1) (i + 1)) = Fin h ->
  Math_min (slice lows (i - period + 1) (i + 1)) = Fin l ->
  (h == l)%Q ->
  is_finite (stochastic_at highs lows closes period i) = false.
Proof.
  intros Hh Hl E. unfold stochastic_at. rewrite Hh, Hl.
  cbn [num_sub num_neg num_add].
  assert (D : Qeq_bool (h + - l) 0 = true) by (apply Qeq_bool_iff; lra).
  destruct (get closes i) as [c| | |];
    cbn [num_sub num_neg num_add num_div]; rewrite ?D; try reflexivity.
  destruct (c + - l ?= 0)%Q; reflexivity.
Qed.

(** A flat window inside the input has its sample in the output: the loop
    pushes one value per window, and that of a flat window is not finite. *)
Lemma calculateStochastic_flat_sample (highs lows closes : list num)
  (period k : Z) (h l : Q) :
  0 <= k < len closes - period + 1 ->
  Math_max (slice highs k (k + period)) = Fin h ->
  Math_min (slice lows k (k + period)) = Fin l ->
  (h == l)%Q ->
  exists s,
    nth_error (calculateStochastic highs lows closes period) (Z.to_nat k)
    = Some s /\
    s = stochastic_at highs lows closes period (k + period - 1) /\
    is_finite s = false.
Proof.
  intros Hk Hh Hl E. unfold calculateStochastic.
  assert (B : (Z.to_nat k < Z.to_nat (len closes - (period - 1)))%nat) by lia.
  exists (stochastic_at highs lows closes period (k + period - 1)).
  split; [|split; [reflexivity|]].
  - rewrite (nth_error_nth' _ NaN)
      by (rewrite length_map, range_length; exact B).
    rewrite nth_map_range by exact B. do 2 f_equal. lia.
  - apply (stochastic_at_flat highs lows closes period (k + period - 1) h l);
      [| | exact E].
    + replace (k + period - 1 - period + 1) with k by lia.
      replace (k + period - 1 + 1) with (k + period) by lia. exact Hh.
    + replace (k + period - 1 - period + 1) with k by lia.
      replace (k + period - 1 + 1) with (k + period) by lia. exact Hl.
Qed.

(** C4. Twenty valid bars (low <= close <= high) whose first fourteen do not
    move: the output has its seven samples, the first window of the default
    period is flat, the division by [highestHigh - lowestLow = 0] is made,
    and the first sample, which the output holds at index 0, is [NaN], not
    a finite number. *)
Theorem calculateStochastic_flat_window_not_finite :
  exists (highs lows closes : list num) (k : Z),
    len highs = len closes /\ len lows = len closes /\
    Forall (fun x => is_finite x = true) (highs ++ lows ++ closes) /\
    (forall j, 0 <= j < len closes ->
       num_ltb (get closes j) (get lows j) = false /\
       num_ltb (get highs j) (get closes j) = false) /\
    0 <= k < len closes - Stochastic_period + 1 /\
    Math_max (slice highs k (k + Stochastic_period))
    = Math_min (slice lows k (k + Stochastic_period)) /\
    num_sub (Math_max (slice highs k (k + Stochastic_period)))
            (Math_min (slice lows k (k + Stochastic_period))) = Fin 0 /\
    len (calculateStochastic highs lows closes Stochastic_period)
    = len closes - Stochastic_period + 1 /\
    (exists s,
       nth_error (calculateStochastic highs lows closes Stochastic_period)
                 (Z.to_nat k) = Some s /\
       s = NaN /\ is_finite s = false) /\
    get (calculateStochastic highs lows closes Stochastic_period) k = NaN /\
    is_finite (get (calculateStochastic highs lows closes Stochastic_period) k)
    = false.
Proof.
  exists (repeat (lit 5) 14 ++ repeat (lit 6) 6),
         (repeat (lit 5) 14 ++ repeat (lit 4) 6),
         (repeat (lit 5) 20), 0.
  split; [reflexivity|]. split; [reflexivity|].
  split; [repeat constructor|].
  split.
  - intros j Hj. unfold len in Hj. simpl in Hj.
    assert (C : exists n, (n < 20)%nat /\ j = Z.of_nat n)
      by (exists (Z.to_nat j); lia).
    destruct C as (n & Hn & ->).
    do 20 (destruct n as [|n]; [split; reflexivity|]). lia.
  - split; [split; [lia|reflexivity]|].
    split; [reflexivity|]. split; [reflexivity|].
    split; [reflexivity|].
    split; [exists NaN; repeat split; reflexivity|].
    split; reflexivity.
Qed.

End Stochastic.

Section Bollinger.
Import TechnicalIndicators.
Local Open Scope Q_scope.

Variable sqrtQ : Q -> Q.
Hypothesis sqrtQ_nonneg : forall x, 0 <= x -> 0 <= sqrtQ x.

Lemma fold_Qplus_Qsum (w : list Q) (a : Q) :
  fold_left Qplus w a == a + Qsum w.
Proof.
  revert a. induction w as [|x w IH]; intro a; simpl.
  - ring.
  - rewrite IH. ring.
Qed.

(** The accumulation of squared deviations stays within the finite values. *)
Lemma fold_deviations_Fin (mu : Q) (w : list Q) (a : Q) :
  fold_left (fun a b => num_add a (Math_pow2 (num_sub b (Fin mu))))
            (map Fin w) (Fin a)
  = Fin (fold_left (fun a b => a + (b + - mu) * (b + - mu)) w a).
Proof.
  revert a. induction w as [|x w IH]; intro a; simpl; [reflexivity|].
  apply IH.
Qed.

Lemma fold_deviations_Qsum (mu mu' : Q) (w : list Q) (a : Q) :
  mu == mu' ->
  fold_left (fun a b => a + (b + - mu) * (b + - mu)) w a
  == a + Qsum (map (fun x => (x - mu') * (x - mu')) w).
Proof.
  intro E. revert a. induction w as [|x w IH]; intro a; simpl.
  - ring.
  - rewrite IH, E. unfold Qminus. ring.
Qed.

Lemma Qsquare_nonneg (y : Q) : 0 <= y * y.
Proof. nra. Qed.

Lemma Qsum_squares_nonneg (mu : Q) (w : list Q) :
  0 <= Qsum (map (fun x => (x - mu) * (x - mu)) w).
Proof.
  unfold Qsum. induction w as [|x w IH]; cbn [map fold_right]; [lra|].
  pose proof (Qsquare_nonneg (x - mu)). lra.
Qed.

(** One iteration of the Bollinger loop on a full window of finite closes. *)
Lemma bollinger_at_spec (ps : list Q) (period : Z) (m : Q) (i : Z) :
  (1 <= period)%Z -> (period - 1 <= i < len ps)%Z -> 0 <= m ->
  let w := slice ps (i - period + 1) (i + 1) in
  exists mid up lo v,
    bollinger_at sqrtQ (map Fin ps) period (Fin m) i
    = Ok (Fin mid, Fin up, Fin lo) /\
    mid == mean_of w /\ v == population_variance w /\
    up == mid + sqrtQ v * m /\ lo == mid - sqrtQ v * m /\
    lo <= mid <= up.
Proof.
  intros Hp Hi Hm w.
  assert (Lw : len w = period) by (unfold w; rewrite slice_length; lia).
  unfold bollinger_at. rewrite slice_map. fold w.
  destruct w as [|q qs] eqn:Ew; [unfold len in Lw; simpl in Lw; lia|].
  rewrite <- Ew in *.
  assert (R : reduce1 num_add (map Fin w)
              = Ok (Fin (fold_left Qplus qs q))).
  { rewrite Ew. simpl. now rewrite fold_add_Fin. }
  rewrite R. cbn [bind]. rewrite num_div_Fin_lit by exact Hp.
  set (mid := fold_left Qplus qs q / inject_Z period).
  assert (Emid : mid == mean_of w).
  { unfold mid, mean_of. rewrite Lw, fold_Qplus_Qsum, Ew. simpl.
    reflexivity. }
  unfold variance_of, reduce. change (lit 0) with (Fin 0).
  rewrite fold_deviations_Fin, num_div_Fin_lit by exact Hp.
  set (v := fold_left _ w 0 / inject_Z period).
  assert (Ev : v == population_variance w).
  { unfold v, population_variance.
    rewrite (fold_deviations_Qsum mid (mean_of w) w 0 Emid), Lw.
    field. intro C. pose proof (inject_Z_pos period Hp). lra. }
  assert (Nv : 0 <= v).
  { rewrite Ev. unfold population_variance.
    apply Qdiv_nonneg; [apply Qsum_squares_nonneg|].
    rewrite Lw. now apply inject_Z_pos. }
  unfold Math_sqrt.
  destruct (Qle_bool 0 v) eqn:B;
    [| apply Qle_bool_iff in Nv; congruence].
  cbn [num_mul num_add num_sub num_neg].
  exists mid, (mid + sqrtQ v * m), (mid + - (sqrtQ v * m)), v.
  split; [reflexivity|]. split; [exact Emid|]. split; [exact Ev|].
  split; [reflexivity|]. split; [unfold Qminus; reflexivity|].
  assert (S := sqrtQ_nonneg v Nv).
  assert (0 <= sqrtQ v * m) by (apply Qmult_le_0_compat; assumption).
  lra.
Qed.

(** C8. On closes at least as long as the period (finite values, period at
    least 1, multiplier not negative) the Bollinger loop does not throw and
    yields [len - period + 1] samples on each of its three bands; the middle
    band is the mean of the window, the upper and lower bands are the middle
    plus and minus the multiplier times the square root of the population
    variance of the window, and lower <= middle <= upper. *)
Theorem calculateBollingerBands_ordered (ps : list Q) (period : Z) (m : Q) :
  (1 <= period)%Z -> (period <= len ps)%Z -> 0 <= m ->
  exists b,
    calculateBollingerBands sqrtQ (map Fin ps) period (Fin m) = Ok b /\
    len (sma b) = (len ps - period + 1)%Z /\
    len (upperBand b) = (len ps - period + 1)%Z /\
    len (lowerBand b) = (len ps - period + 1)%Z /\
    forall k, (0 <= k < len ps - period + 1)%Z ->
      let w := slice ps k (k + period) in
      exists mid up lo v,
        get (sma b) k = Fin mid /\
        get (upperBand b) k = Fin up /\
        get (lowerBand b) k = Fin lo /\
        mid == mean_of w /\ v == population_variance w /\
        up == mid + sqrtQ v * m /\ lo == mid - sqrtQ v * m /\
        lo <= mid <= up.
Proof.
  intros Hp Hl Hm. unfold calculateBollingerBands, for_push.
  destruct (mapM_total (bollinger_at sqrtQ (map Fin ps) period (Fin m))
              (fun i r =>
                 let w := slice ps (i - period + 1) (i + 1) in
                 exists mid up lo v,
                   r = (Fin mid, Fin up, Fin lo) /\
                   mid == mean_of w /\ v == population_variance w /\
                   up == mid + sqrtQ v * m /\ lo == mid - sqrtQ v * m /\
                   lo <= mid <= up)
              (range (period - 1) (len (map Fin ps))))
    as (rows & E & F).
  { intros i Hi. apply In_range in Hi. rewrite len_map in Hi.
    destruct (bollinger_at_spec ps period m i Hp Hi Hm)
      as (mid & up & lo & v & Eb & H).
    exists (Fin mid, Fin up, Fin lo). split; [exact Eb|].
    now exists mid, up, lo, v. }
  rewrite E. cbn [bind]. eexists. split; [reflexivity|].
  cbn [sma upperBand lowerBand].
  assert (L : length rows = Z.to_nat (len ps - period + 1)).
  { rewrite (Forall2_length_eq _ _ _ F), range_length, len_map. lia. }
  rewrite !len_map.
  split; [unfold len in *; lia|]. split; [unfold len in *; lia|].
  split; [unfold len in *; lia|].
  intros k Hk.
  pose proof (Forall2_nth _ _ _ (Z.to_nat k) 0%Z (NaN, NaN, NaN) F) as N.
  rewrite range_length, len_map in N. rewrite nth_range in N by lia.
  cbv zeta in N.
  destruct N as (mid & up & lo & v & En & H); [lia|].
  replace (period - 1 + Z.of_nat (Z.to_nat k) - period + 1)%Z with k in H
    by lia.
  replace (period - 1 + Z.of_nat (Z.to_nat k) + 1)%Z with (k + period)%Z in H
    by lia.
  exists mid, up, lo, v.
  rewrite !get_nth by (rewrite len_map; unfold len in *; lia).
  rewrite !nth_map_in with (da := (NaN, NaN, NaN)) by lia.
  rewrite En. cbn [fst snd].
  repeat split; try reflexivity; apply H.
Qed.

End Bollinger.

Section BollingerRun.
Import TechnicalIndicators.
Local Open Scope Q_scope.

Lemma sqrt_down_nonneg (x : Q) : 0 <= x -> 0 <= sqrt_down x.
Proof.
  intros _. unfold sqrt_down, Qle. simpl.
  pose proof (Z.sqrt_nonneg (Qnum x * Z.pos (Qden x))). lia.
Qed.

Lemma calculateBollingerBands_ordered_witness :
  let closes := [44; 44.25; 44.5; 43.75; 44.65; 45.1; 45.42; 45.84; 46.08;
                 45.89; 46.03; 45.61; 46.28; 46.28; 46; 46.03; 46.41; 46.22;
                 45.64; 46.21; 46.25] in
  (forall x, 0 <= x -> 0 <= sqrt_down x) /\
  (1 <= Bollinger_period)%Z /\ (Bollinger_period <= len closes)%Z /\ 0 <= 2 /\
  exists b,
    calculateBollingerBands sqrt_down (map Fin closes) Bollinger_period
      Bollinger_stdDev = Ok b /\
    len (sma b) = (len closes - Bollinger_period + 1)%Z /\
    len (upperBand b) = (len closes - Bollinger_period + 1)%Z /\
    len (lowerBand b) = (len closes - Bollinger_period + 1)%Z /\
    forall k, (0 <= k < len closes - Bollinger_period + 1)%Z ->
      let w := slice closes k (k + Bollinger_period) in
      exists mid up lo v,
        get (sma b) k = Fin mid /\
        get (upperBand b) k = Fin up /\
        get (lowerBand b) k = Fin lo /\
        mid == mean_of w /\ v == population_variance w /\
        up == mid + sqrt_down v * 2 /\ lo == mid - sqrt_down v * 2 /\
        lo <= mid <= up.
Proof.
  intro closes. split; [exact sqrt_down_nonneg|]. split; [discriminate|].
  split; [discriminate|]. split; [discriminate|].
  apply (calculateBollingerBands_ordered sqrt_down sqrt_down_nonneg
           closes Bollinger_period 2);
    [discriminate | discriminate | discriminate].
Defined.

End BollingerRun.

(* ===================================================================== *)
(** ** Facts about sorting and about maps *)
(* ===================================================================== *)

Section SortFacts.
Local Open Scope Q_scope.

Context {A : Type} (cmp : A -> A -> Q) (key : A -> Q).
Hypothesis cmp_key : forall a b, Qle_bool (cmp a b) 0 = true <-> key a <= key b.

Lemma sort_insert_In (x : A) (l : list A) (y : A) :
  In y (sort_insert cmp x l) <-> y = x \/ In y l.
Proof.
  induction l as [|z l IH]; simpl.
  - intuition auto.
  - destruct (Qle_bool (cmp x z) 0); simpl; [intuition auto|].
    rewrite IH. intuition auto.
Qed.

Lemma sort_In (l : list A) (y : A) : In y (sort cmp l) <-> In y l.
Proof.
  induction l as [|x l IH]; simpl; [reflexivity|].
  rewrite sort_insert_In, IH. intuition auto.
Qed.

Lemma sort_insert_length (x : A) (l : list A) :
  length (sort_insert cmp x l) = S (length l).
Proof.
  induction l as [|z l IH]; simpl; [reflexivity|].
  destruct (Qle_bool (cmp x z) 0); simpl; [reflexivity | now rewrite IH].
Qed.

Lemma sort_length (l : list A) : length (sort cmp l) = length l.
Proof.
  induction l as [|x l IH]; simpl; [reflexivity|].
  now rewrite sort_insert_length, IH.
Qed.

Lemma sort_insert_sorted (x : A) (l : list A) :
  Sorted (fun a b => key a <= key b) l ->
  Sorted (fun a b => key a <= key b) (sort_insert cmp x l).
Proof.
  induction 1 as [|z l S IH H]; simpl.
  - repeat constructor.
  - destruct (Qle_bool (cmp x z) 0) eqn:E.
    + apply cmp_key in E. repeat constructor; assumption.
    + assert (Hzx : key z <= key x).
      { destruct (Qlt_le_dec (key z) (key x)) as [L|L]; [lra|].
        apply cmp_key in L. congruence. }
      constructor; [exact IH|].
      destruct l as [|w l]; simpl.
      * now constructor.
      * destruct (Qle_bool (cmp x w) 0); constructor; [exact Hzx|].
        now inversion H.
Qed.

Lemma sort_sorted (l : list A) :
  Sorted (fun a b => key a <= key b) (sort cmp l).
Proof.
  induction l as [|x l IH]; simpl; [constructor|].
  now apply sort_insert_sorted.
Qed.

(** An element inserted among elements of its own class goes before them:
    the filter of a class keeps the order of arrival. *)
Lemma sort_insert_filter (p : A -> bool) (x : A) (l : list A) :
  (forall a b, p a = true -> p b = true -> key a == key b) ->
  filter p (sort_insert cmp x l)
  = if p x then x :: filter p l else filter p l.
Proof.
  intro Hp. induction l as [|z l IH]; simpl.
  - reflexivity.
  - destruct (Qle_bool (cmp x z) 0) eqn:E; simpl.
    + reflexivity.
    + rewrite IH. destruct (p x) eqn:Px, (p z) eqn:Pz; try reflexivity.
      assert (L : key x <= key z) by (rewrite (Hp x z Px Pz); lra).
      apply cmp_key in L. congruence.
Qed.

(** Stability: within a class of equal keys the sort keeps the order of the
    input. *)
Lemma sort_filter_stable (p : A -> bool) (l : list A) :
  (forall a b, p a = true -> p b = true -> key a == key b) ->
  filter p (sort cmp l) = filter p l.
Proof.
  intro Hp. induction l as [|x l IH]; simpl; [reflexivity|].
  rewrite sort_insert_filter by exact Hp. now rewrite IH.
Qed.

End SortFacts.

Section MapFacts.
Local Open Scope Q_scope.

Context {V : Type} (key : V -> Q).

(** The entries of the map built from a list, each value under its key. *)
Let built (l : list V) : list (Q * V) :=
  map_set_all Qeq_bool key (fun x => x) l [].

Lemma Qeq_bool_congr (a b c : Q) : a == b -> Qeq_bool a c = Qeq_bool b c.
Proof.
  intro E. destruct (Qeq_bool a c) eqn:Ea, (Qeq_bool b c) eqn:Eb;
    try reflexivity.
  - apply Qeq_bool_iff in Ea. rewrite E in Ea. apply Qeq_bool_iff in Ea.
    congruence.
  - apply Qeq_bool_iff in Eb. rewrite <- E in Eb. apply Qeq_bool_iff in Eb.
    congruence.
Qed.

Lemma Qeq_bool_congr_r (a b c : Q) : a == b -> Qeq_bool c a = Qeq_bool c b.
Proof.
  intro E. rewrite (Qeq_bool_comm c a), (Qeq_bool_comm c b).
  now apply Qeq_bool_congr.
Qed.

Lemma filter_none {A} (p : A -> bool) (l : list A) :
  Forall (fun a => p a = false) l -> filter p l = [].
Proof.
  induction 1 as [|a l Ha H IH]; simpl; [reflexivity|]. now rewrite Ha.
Qed.

(** What [set] does: a new key goes to the end, a key already there keeps
    its place (the first and only place it has) and takes the value. *)
Lemma map_set_cases (m : list (Q * V)) (k : Q) (v : V) :
  (Forall (fun kv => Qeq_bool k (fst kv) = false) m /\
   map_set Qeq_bool m k v = m ++ [(k, v)])
  \/
  (exists m1 k' v' m2,
      m = m1 ++ (k', v') :: m2 /\ Qeq_bool k k' = true /\
      Forall (fun kv => Qeq_bool k (fst kv) = false) m1 /\
      map_set Qeq_bool m k v = m1 ++ (k', v) :: m2).
Proof.
  induction m as [|[k0 v0] m IH]; simpl.
  - left. split; [constructor | reflexivity].
  - destruct (Qeq_bool k k0) eqn:E.
    + right. exists [], k0, v0, m. repeat split; auto.
    + destruct IH as [[F Em] | (m1 & k' & v' & m2 & -> & Ek & F & Em)].
      * left. split; [constructor; auto|]. now rewrite Em.
      * right. exists ((k0, v0) :: m1), k', v', m2.
        repeat split; simpl; auto. now rewrite Em.
Qed.

Lemma built_snoc (l : list V) (x : V) :
  built (l ++ [x]) = map_set Qeq_bool (built l) (key x) x.
Proof. unfold built, map_set_all. now rewrite fold_left_app. Qed.

(** The map built from a list: every entry sits under the key of its value,
    every value comes from the list, and of the elements of the list with
    a given key exactly one is in the map, the last one. *)
Lemma built_spec (l : list V) :
  Forall (fun kv => fst kv == key (snd kv)) (built l) /\
  (forall v, In v (map_values (built l)) -> In v l) /\
  (forall y, In y l ->
     filter (fun v => Qeq_bool (key y) (key v)) (map_values (built l))
     = [last (filter (fun v => Qeq_bool (key y) (key v)) l) y]).
Proof.
  induction l as [|x l (W & M & F)] using rev_ind.
  - split; [constructor|]. split; [intros v []|intros y []].
  - rewrite built_snoc. unfold map_values in *.
    destruct (map_set_cases (built l) (key x) x)
      as [[N ->] | (m1 & k' & v' & m2 & Em & Ek & N & ->)].
    + (* a new key *)
      split; [|split].
      * apply Forall_app. split; [exact W|]. repeat constructor.
      * intros v Hv. rewrite map_app in Hv. apply in_app_iff in Hv.
        apply in_app_iff. destruct Hv as [Hv | [<- | []]]; simpl; auto.
      * intros y Hy. rewrite map_app, !filter_app. simpl.
        destruct (Qeq_bool (key y) (key x)) eqn:E.
        -- rewrite last_last. rewrite filter_none; [reflexivity|].
           apply Forall_map. rewrite Forall_forall in *. intros kv Hkv.
           specialize (N kv Hkv). specialize (W kv Hkv). simpl in *.
           apply Qeq_bool_iff in E.
           rewrite (Qeq_bool_congr _ _ _ E), <- (Qeq_bool_congr_r _ _ _ W).
           exact N.
        -- rewrite !app_nil_r. apply F.
           apply in_app_iff in Hy as [Hy | [<- | []]]; [exact Hy|].
           rewrite Qeq_bool_refl in E. discriminate.
    + (* a key of the map *)
      rewrite Em in W, M, F. apply Qeq_bool_iff in Ek.
      apply Forall_app in W as [W1 W2].
      inversion W2 as [|? ? Wv W2']; subst. simpl in Wv.
      assert (Exv : key x == key v') by (rewrite Ek; exact Wv).
      split; [|split].
      * apply Forall_app. split; [exact W1|]. constructor; [|exact W2'].
        simpl. symmetry. exact Ek.
      * intros v Hv. rewrite map_app in Hv. simpl in Hv.
        apply in_app_iff in Hv. apply in_app_iff.
        destruct Hv as [Hv | [<- | Hv]]; [left | right; now left | left];
          apply M; rewrite map_app; apply in_app_iff; simpl; auto.
      * intros y Hy. rewrite map_app, !filter_app. simpl.
        rewrite map_app in F. simpl in F.
        destruct (Qeq_bool (key y) (key x)) eqn:E.
        -- rewrite last_last.
           assert (Hv' : In v' l).
           { apply M. rewrite map_app. apply in_app_iff. simpl. auto. }
           specialize (F v' Hv'). rewrite filter_app in F. simpl in F.
           rewrite Qeq_bool_refl in F.
           assert (Ey : key y == key v').
           { apply Qeq_bool_iff in E. rewrite E. exact Exv. }
           assert (X : forall vs,
                      filter (fun v => Qeq_bool (key y) (key v)) vs
                      = filter (fun v => Qeq_bool (key v') (key v)) vs).
           { intro vs. apply filter_ext. intro a. now apply Qeq_bool_congr. }
           rewrite !X.
           destruct (filter _ (map snd m1)) as [|a f1].
           ++ simpl in F. injection F as _ F. now rewrite F.
           ++ simpl in F. injection F as _ F.
              apply (f_equal (@length V)) in F.
              rewrite length_app in F. simpl in F. lia.
        -- rewrite app_nil_r.
           assert (Hyl : In y l).
           { apply in_app_iff in Hy as [Hy | [<- | []]]; [exact Hy|].
             rewrite Qeq_bool_refl in E. discriminate. }
           specialize (F y Hyl). rewrite filter_app in F. simpl in F.
           rewrite <- (Qeq_bool_congr_r _ _ _ Exv), E in F. exact F.
Qed.

Lemma StronglySorted_snoc {A} (R : A -> A -> Prop) (l : list A) (x : A) :
  StronglySorted R l -> Forall (fun y => R y x) l ->
  StronglySorted R (l ++ [x]).
Proof.
  induction 1 as [|a l S IH Ha]; intro F; simpl.
  - repeat constructor.
  - inversion F as [|? ? Rax F']; subst.
    constructor; [now apply IH|].
    apply Forall_app. split; [exact Ha | now constructor].
Qed.

Lemma StronglySorted_snoc_inv {A} (R : A -> A -> Prop) (l : list A) (x : A) :
  StronglySorted R (l ++ [x]) ->
  StronglySorted R l /\ Forall (fun y => R y x) l.
Proof.
  induction l as [|a l IH]; simpl; intro S.
  - split; constructor.
  - inversion S as [|? ? S' Ha]; subst.
    destruct (IH S') as [Sl Fl]. apply Forall_app in Ha as [Ha Hx].
    split; constructor; auto. now inversion Hx.
Qed.

(** In a list sorted by key, an element can give way to one of equal key. *)
Lemma StronglySorted_replace (v1 v2 : list V) (v' x : V) :
  key x == key v' ->
  StronglySorted (fun a b => key a < key b) (v1 ++ v' :: v2) ->
  StronglySorted (fun a b => key a < key b) (v1 ++ x :: v2).
Proof.
  intro E. induction v1 as [|a v1 IH]; simpl; intro S;
    inversion S as [|? ? S' Ha]; subst.
  - constructor; [exact S'|].
    eapply Forall_impl; [|exact Ha]. intros b Hb. simpl in Hb. lra.
  - constructor; [now apply IH|].
    apply Forall_app in Ha as [Ha1 Ha2]. apply Forall_app.
    split; [exact Ha1|]. inversion Ha2; subst. constructor; [lra | assumption].
Qed.

(** The map built from a list sorted by key lists its values by strictly
    increasing key. *)
Lemma built_sorted (l : list V) :
  StronglySorted (fun a b => key a <= key b) l ->
  StronglySorted (fun a b => key a < key b) (map_values (built l)).
Proof.
  induction l as [|x l IH] using rev_ind; intro S.
  - constructor.
  - apply StronglySorted_snoc_inv in S as [S Fx]. specialize (IH S).
    destruct (built_spec l) as (W & M & _).
    rewrite built_snoc. unfold map_values in *.
    destruct (map_set_cases (built l) (key x) x)
      as [[N ->] | (m1 & k' & v' & m2 & Em & Ek & N & ->)].
    + rewrite map_app. simpl. apply StronglySorted_snoc; [exact IH|].
      apply Forall_map. rewrite Forall_forall in *. intros kv Hkv.
      specialize (N kv Hkv). specialize (W kv Hkv). simpl in *.
      assert (Hl : key (snd kv) <= key x).
      { apply Fx, M. apply in_map_iff. now exists kv. }
      assert (Hn : ~ key x == fst kv).
      { intro C. apply Qeq_bool_iff in C. congruence. }
      destruct (Qlt_le_dec (key (snd kv)) (key x)) as [L|L]; [exact L|].
      exfalso. apply Hn. rewrite W. lra.
    + rewrite Em in W, IH. rewrite map_app in *. simpl in *.
      apply Forall_app in W as [_ W2]. inversion W2 as [|? ? Wv _]; subst.
      simpl in Wv. apply Qeq_bool_iff in Ek.
      apply StronglySorted_replace with (v' := v'); [|exact IH].
      rewrite Ek. exact Wv.
Qed.

End MapFacts.

(* ===================================================================== *)
(** ** Facts about the chart series *)
(* ===================================================================== *)

Section Normalizer.
Import CandlestickChart.
Local Open Scope Q_scope.

Lemma timeOf_le (a b : PricePoint) :
  timeOf a <= timeOf b <-> (date a <= date b)%Z.
Proof. unfold timeOf, Qle. simpl. lia. Qed.

Lemma timeOf_eq (a b : PricePoint) :
  timeOf a == timeOf b <-> date a = date b.
Proof. unfold timeOf, Qeq. simpl. lia. Qed.

(** The comparator of the sort orders the records by their time. *)
Lemma by_date_key (a b : PricePoint) :
  Qle_bool (inject_Z (date a - date b)) 0 = true <-> timeOf a <= timeOf b.
Proof.
  rewrite Qle_bool_iff, timeOf_le. unfold Qle. simpl. lia.
Qed.

Lemma sortedData_sorted (priceData : list PricePoint) :
  StronglySorted (fun a b => timeOf a <= timeOf b) (sortedData priceData).
Proof.
  apply Sorted_StronglySorted.
  - intros a b c Hab Hbc. lra.
  - unfold sortedData. apply sort_sorted. exact by_date_key.
Qed.

(** C9. The normalised series has strictly increasing times, so no two of
    its points share a timestamp; it holds only points of the input; and of
    the input points that share the timestamp of a point [p] exactly one
    survives, the last of them in the sorted order, which among duplicates is
    the order of the input. An empty input gives an empty series. *)
Theorem uniqueData_normalised (priceData : list PricePoint) :
  StronglySorted (fun a b => timeOf a < timeOf b) (uniqueData priceData) /\
  (forall p, In p (uniqueData priceData) -> In p priceData) /\
  (forall p, In p priceData ->
     let dup := fun x => Qeq_bool (timeOf p) (timeOf x) in
     filter dup (uniqueData priceData)
     = [last (filter dup (sortedData priceData)) p] /\
     filter dup (sortedData priceData) = filter dup priceData) /\
  uniqueData [] = [].
Proof.
  unfold uniqueData.
  destruct (built_spec timeOf (sortedData priceData)) as (_ & M & F).
  split; [|split; [|split]].
  - apply built_sorted, sortedData_sorted.
  - intros p Hp. apply M in Hp. unfold sortedData in Hp.
    now apply sort_In in Hp.
  - intros p Hp. cbv zeta. split.
    + apply F. unfold sortedData. now apply sort_In.
    + unfold sortedData, filterDataByTimeRange.
      apply sort_filter_stable with (key := timeOf); [exact by_date_key|].
      intros a b Ha Hb. apply Qeq_bool_iff in Ha, Hb. now rewrite <- Ha, <- Hb.
  - reflexivity.
Qed.

(** Two records of one timestamp and different closes, with a third between
    them in the input: the later of the two survives. *)
Example uniqueData_last_wins :
  let p (d : Z) (c : Z) :=
    {| date := d; open_price := lit c; high_price := lit c;
       low_price := lit c; close_price := lit c; volume := Undefined |} in
  uniqueData [p 3000 1; p 1000 2; p 3000 3; p 2000 4]%Z
  = [p 1000 2; p 2000 4; p 3000 3]%Z.
Proof. reflexivity. Qed.

End Normalizer.

Section Portfolio.
Import CandlestickChart.
Local Open Scope Q_scope.

Lemma js_or_truthy (a b : jsval) :
  truthy b = true -> truthy (js_or a b) = true.
Proof. intro H. unfold js_or. now destruct (truthy a) eqn:E. Qed.

Lemma fallback_truthy (initialCapital : jsval) :
  truthy (js_or initialCapital (Num (lit 10000))) = true.
Proof. now apply js_or_truthy. Qed.

(** A non-empty input leaves a non-empty normalised series. *)
Lemma uniqueData_nonempty (priceData : list PricePoint) :
  priceData <> [] -> uniqueData priceData <> [].
Proof.
  destruct priceData as [|p priceData]; [contradiction|]. intros _ C.
  destruct (built_spec timeOf (sortedData (p :: priceData))) as (_ & _ & F).
  specialize (F p). unfold uniqueData in C. rewrite C in F.
  simpl in F. discriminate F.
  unfold sortedData. apply sort_In. now left.
Qed.

(** The values of a map built from a list, once sorted, all come from the
    list. *)
Lemma sorted_values_In (l : list point) (pt : point) :
  In pt (sort by_time
           (map_values (map_set_all Qeq_bool time (fun item => item) l []))) ->
  In pt l.
Proof.
  intro H. apply sort_In in H.
  destruct (built_spec time l) as (_ & M & _). now apply M.
Qed.

Lemma Forall2_In_r {A B} (P : A -> B -> Prop) (l : list A) (xs : list B)
  (x : B) :
  Forall2 P l xs -> In x xs -> exists a, In a l /\ P a x.
Proof.
  induction 1 as [|a b l xs Hab H IH]; intros [].
  - subst. exists a. split; [now left | exact Hab].
  - destruct IH as (a' & Ha' & Pa'); [assumption|].
    exists a'. split; [now right | exact Pa'].
Qed.

(** C10. The value emitted for a portfolio metric is its [total_value] when
    this one is truthy, otherwise [initialCapital] when that one is truthy,
    otherwise 10000; it equals [total_value] only when [total_value] is
    truthy, and it is itself always truthy. The effect does not throw, and
    every point it sets on the series carries such a value: a portfolio
    value of 0 never reaches the series. *)
Theorem portfolio_value_never_zero (priceData : list PricePoint)
  (portfolioValueHistory : list PortfolioMetricPoint)
  (initialCapital : jsval) :
  (forall uniqueData metric pt,
     portfolioPoint uniqueData initialCapital metric = Ok pt ->
     value pt
     = (if truthy (total_value metric) then total_value metric
        else if truthy initialCapital then initialCapital
             else Num (lit 10000)) /\
     (value pt = total_value metric <-> truthy (total_value metric) = true) /\
     truthy (value pt) = true) /\
  exists u,
    uniquePortfolioData priceData portfolioValueHistory initialCapital = Ok u /\
    forall l, u = SetData l ->
      Forall (fun pt =>
                (exists metric,
                    In metric portfolioValueHistory /\
                    value pt = js_or (total_value metric)
                                 (js_or initialCapital (Num (lit 10000)))) /\
                truthy (value pt) = true /\
                forall q, value pt = Num (Fin q) -> ~ q == 0) l.
Proof.
  split.
  - intros uniqueData metric pt. unfold portfolioPoint.
    destruct uniqueData as [|first rest]; [discriminate|].
    intros [= <-]. cbn [value].
    set (fb := js_or initialCapital (Num (lit 10000))).
    assert (Fb : truthy fb = true) by apply fallback_truthy.
    assert (Efb : fb = if truthy initialCapital then initialCapital
                       else Num (lit 10000)) by reflexivity.
    unfold js_or. destruct (truthy (total_value metric)) eqn:T.
    + repeat split; auto.
    + rewrite <- Efb. split; [reflexivity|]. split; [|exact Fb].
      split; [|discriminate]. intro E. rewrite E in Fb. congruence.
  - unfold uniquePortfolioData.
    destruct portfolioValueHistory as [|m0 history] eqn:Eh.
    { eexists. split; [reflexivity|]. intros l [= <-]. constructor. }
    rewrite <- Eh.
    destruct priceData as [|p0 pd] eqn:Ep.
    { eexists. split; [reflexivity|]. intros l [=]. }
    rewrite <- Ep.
    assert (Ne : uniqueData priceData <> [])
      by (apply uniqueData_nonempty; rewrite Ep; discriminate).
    unfold portfolioData.
    destruct (mapM_total (portfolioPoint (uniqueData priceData) initialCapital)
                (fun metric pt =>
                   value pt = js_or (total_value metric)
                                (js_or initialCapital (Num (lit 10000))))
                portfolioValueHistory) as (pts & -> & F).
    { intros metric _. unfold portfolioPoint.
      destruct (uniqueData priceData) as [|first rest]; [contradiction|].
      eexists. split; reflexivity. }
    cbn [bind].
    assert (P : forall pt,
               In pt (sort by_time
                        (map_values
                           (map_set_all Qeq_bool time (fun item => item)
                              pts []))) ->
               (exists metric,
                   In metric portfolioValueHistory /\
                   value pt = js_or (total_value metric)
                                (js_or initialCapital (Num (lit 10000)))) /\
               truthy (value pt) = true /\
               forall q, value pt = Num (Fin q) -> ~ q == 0).
    { intros pt Hpt. apply sorted_values_In in Hpt.
      destruct (Forall2_In_r _ _ _ _ F Hpt) as (metric & Hm & Ev).
      assert (T : truthy (value pt) = true)
        by (rewrite Ev; apply js_or_truthy, fallback_truthy).
      split; [now exists metric|]. split; [exact T|].
      intros q Eq C. rewrite Eq in T. simpl in T.
      apply Qeq_bool_iff in C. rewrite C in T. discriminate. }
    destruct (sort by_time _) as [|pt l'] eqn:Es.
    + eexists. split; [reflexivity|]. intros l [=].
    + eexists. split; [reflexivity|]. intros l [= <-].
      apply Forall_forall. exact P.
Qed.

End Portfolio.

Section IndexedMap.
Local Open Scope Q_scope.

Context {V : Type} (ts : Z -> Q).
Hypothesis ts_inj : forall i j, ts i == ts j -> i = j.

Lemma ts_differ (i j : Z) : i <> j -> Qeq_bool (ts i) (ts j) = false.
Proof.
  intro N. destruct (Qeq_bool (ts i) (ts j)) eqn:E; [|reflexivity].
  apply Qeq_bool_iff, ts_inj in E. contradiction.
Qed.

(** Setting keys that are new and distinct appends them in turn. *)
Lemma set_all_fresh (f : Z -> V) (js : list Z) (m : list (Q * V)) :
  NoDup js ->
  (forall j, In j js -> Forall (fun kv => Qeq_bool (ts j) (fst kv) = false) m) ->
  map_set_all Qeq_bool ts f js m = m ++ map (fun j => (ts j, f j)) js.
Proof.
  intro N. revert m. induction N as [|j js Hj N IH]; intros m F; simpl.
  - now rewrite app_nil_r.
  - destruct (map_set_cases m (ts j) (f j))
      as [[_ ->] | (m1 & k' & v' & m2 & -> & Ek & _)].
    + rewrite IH.
      * now rewrite <- app_assoc.
      * intros j' Hj'. apply Forall_app. split; [apply F; now right|].
        repeat constructor. simpl. apply ts_differ. intros ->. contradiction.
    + specialize (F j (or_introl eq_refl)).
      apply Forall_app in F as [_ F]. inversion F; subst. simpl in *.
      congruence.
Qed.

(** Setting a key of a map of distinct keys changes the value there. *)
Lemma map_set_at (f : Z -> V) (js : list Z) (j0 : Z) (w : V) :
  NoDup js -> In j0 js ->
  map_set Qeq_bool (map (fun j => (ts j, f j)) js) (ts j0) w
  = map (fun j => (ts j, if (j =? j0)%Z then w else f j)) js.
Proof.
  induction 1 as [|j js Hj N IH]; intro Hin; [destruct Hin|].
  destruct Hin as [-> | Hin]; simpl.
  - rewrite Qeq_bool_refl, Z.eqb_refl. f_equal.
    apply map_ext_in. intros a Ha.
    destruct (a =? j0)%Z eqn:E; [|reflexivity].
    apply Z.eqb_eq in E. subst. contradiction.
  - assert (Nj : j0 <> j) by (intros ->; contradiction).
    rewrite (ts_differ _ _ Nj). rewrite IH by exact Hin.
    destruct (j =? j0)%Z eqn:E; [|reflexivity].
    apply Z.eqb_eq in E. congruence.
Qed.

(** Setting again keys of the map, reached through [r], overwrites the
    values there and moves nothing. *)
Lemma set_all_over (f g : Z -> V) (r : Z -> Z) (idx js : list Z) :
  NoDup js -> (forall i, In i idx -> In (r i) js) ->
  map_set_all Qeq_bool (fun i => ts (r i)) (fun i => g (r i)) idx
    (map (fun j => (ts j, f j)) js)
  = map (fun j => (ts j, if existsb (Z.eqb j) (map r idx) then g j else f j))
        js.
Proof.
  intros N. revert f. induction idx as [|i idx IH]; intros f Hr; simpl.
  - reflexivity.
  - rewrite map_set_at by (try assumption; apply Hr; now left).
    rewrite IH by (intros; apply Hr; now right).
    apply map_ext. intro j.
    destruct (j =? r i)%Z eqn:E; simpl; [|reflexivity].
    apply Z.eqb_eq in E. subst. now destruct (existsb _ _).
Qed.

End IndexedMap.

Section SortedInput.
Local Open Scope Q_scope.

Context {A : Type} (cmp : A -> A -> Q).

(** Sorting a sorted array leaves it as it is. *)
Lemma sort_sorted_id (l : list A) :
  Sorted (fun a b => Qle_bool (cmp a b) 0 = true) l -> sort cmp l = l.
Proof.
  induction 1 as [|x l S IH H]; simpl; [reflexivity|].
  rewrite IH. destruct H as [|y l' Hxy]; simpl; [reflexivity|].
  now rewrite Hxy.
Qed.

Lemma range_cons (lo hi : Z) :
  (lo < hi)%Z -> range lo hi = lo :: range (lo + 1) hi.
Proof.
  intro H. unfold range.
  replace (Z.to_nat (hi - lo)) with (S (Z.to_nat (hi - (lo + 1)))) by lia.
  simpl. f_equal; [lia|]. rewrite <- seq_shift, map_map.
  apply map_ext. intro k. lia.
Qed.

Lemma Sorted_map_range (R : A -> A -> Prop) (g : Z -> A) (lo hi : Z) :
  (forall i, (lo <= i)%Z -> (i + 1 < hi)%Z -> R (g i) (g (i + 1)%Z)) ->
  Sorted R (map g (range lo hi)).
Proof.
  remember (Z.to_nat (hi - lo)) as n eqn:En. revert lo En.
  induction n as [|n IH]; intros lo En H.
  - rewrite range_empty by lia. constructor.
  - rewrite range_cons by lia. simpl. constructor.
    + apply IH; [lia|]. intros i Hi1 Hi2. apply H; lia.
    + destruct (Z_lt_le_dec (lo + 1) hi) as [L|L].
      * rewrite range_cons by exact L. simpl. constructor. apply H; lia.
      * rewrite range_empty by lia. constructor.
Qed.

Lemma NoDup_range (lo hi : Z) : NoDup (range lo hi).
Proof.
  unfold range. apply Finite.Injective_map_NoDup; [|apply seq_NoDup].
  intros a b E. lia.
Qed.

End SortedInput.

Section ConfidenceBand.
Import CandlestickChart.
Local Open Scope Q_scope.

Lemma forecastTime_inj (lastTime : Q) (i j : Z) :
  forecastTime lastTime i == forecastTime lastTime j -> i = j.
Proof.
  unfold forecastTime. intro E.
  assert (E' : inject_Z (i + 1) == inject_Z (j + 1)).
  { revert E. generalize (inject_Z (i + 1)), (inject_Z (j + 1)).
    intros a b E. lra. }
  apply (proj1 (inject_Z_injective (i + 1) (j + 1))) in E'. lia.
Qed.

Lemma forecastTime_step (lastTime : Q) (i : Z) :
  forecastTime lastTime i <= forecastTime lastTime (i + 1).
Proof.
  unfold forecastTime. rewrite !inject_Z_plus.
  generalize (inject_Z i). intro a. change (inject_Z 1) with 1. lra.
Qed.

(** The last point of a non-empty array is there to read. *)
Lemma lastDataPoint_Ok (u : list PricePoint) :
  u <> [] -> exists p, lastDataPoint u = Ok p /\ In p u.
Proof.
  intro N. unfold lastDataPoint.
  destruct (nth_error u (length u - 1)) as [p|] eqn:E.
  - exists p. split; [reflexivity|]. now apply nth_error_In in E.
  - apply nth_error_None in E. destruct u; [contradiction|]. simpl in E. lia.
Qed.

(** What the forecast effect sets on the confidence series, for every
    non-empty price series and every forecast: one point per prediction, in
    ascending time, carrying the lower bound. The upper bounds written by
    the first loop are all overwritten by the second. *)
Lemma confidenceData_lower_bounds (priceData : list PricePoint)
  (forecasts : forecast) :
  priceData <> [] ->
  exists lastPoint,
    lastDataPoint (uniqueData priceData) = Ok lastPoint /\
    confidenceData priceData forecasts
    = Ok (SetData
            (map (fun j =>
                    {| time := forecastTime (timeOf lastPoint) j;
                       value :=
                         get_val (lower (confidence_intervals forecasts)) j |})
                 (range 0 (len (predictions forecasts))))).
Proof.
  intro N.
  destruct (lastDataPoint_Ok (uniqueData priceData)
              (uniqueData_nonempty priceData N)) as (p & Ep & _).
  exists p. split; [exact Ep|].
  unfold confidenceData. destruct priceData as [|p0 pd]; [contradiction|].
  rewrite Ep. cbn [bind]. do 2 f_equal.
  set (T := timeOf p). set (n := len (predictions forecasts)).
  set (g := fun j => {| time := forecastTime T j;
                        value := get_val (lower (confidence_intervals
                                                   forecasts)) j |}).
  assert (M : confidenceMap T forecasts
              = map (fun j => (forecastTime T j, g j)) (range 0 n)).
  { unfold confidenceMap. fold n.
    rewrite (set_all_fresh (forecastTime T) (forecastTime_inj T))
      by (try apply NoDup_range; intros; constructor).
    cbn [app].
    change (map_set_all Qeq_bool
              (fun index => forecastTime T (n - 1 - index)%Z)
              (fun index => g (n - 1 - index)%Z)
              (range 0 n)
              (map (fun j => (forecastTime T j,
                      {| time := forecastTime T j;
                         value := get_val (upper (confidence_intervals
                                                    forecasts)) j |}))
                   (range 0 n))
            = map (fun j => (forecastTime T j, g j)) (range 0 n)).
    rewrite (set_all_over (forecastTime T) (forecastTime_inj T) _ g
               (fun index => (n - 1 - index)%Z)).
    - apply map_ext_in. intros j Hj.
      destruct (existsb _ _) eqn:E; [reflexivity|].
      assert (X : existsb (Z.eqb j)
                    (map (fun index => (n - 1 - index)%Z) (range 0 n)) = true).
      { apply existsb_exists. exists j. split; [|apply Z.eqb_refl].
        apply in_map_iff. exists (n - 1 - j)%Z. apply In_range in Hj.
        split; [lia | apply In_range; lia]. }
      congruence.
    - apply NoDup_range.
    - intros i Hi. apply In_range in Hi. apply In_range. lia. }
  rewrite M. unfold map_values. rewrite map_map. cbn [snd].
  apply sort_sorted_id. apply Sorted_map_range.
  intros i _ _. apply Qle_bool_iff. unfold by_time, g. cbn [time].
  pose proof (forecastTime_step T i). lra.
Qed.

(** C1, at the input where the code departs from it: the two price records
    and the forecast of three steps of the test suite. The upper and the
    lower bounds go through one map under the same keys, so each lower bound
    overwrites the upper bound of its step: the series set on the chart has
    three points instead of six, in ascending time, and holds the lower
    bounds only. *)
Theorem confidenceData_keeps_lower_bounds_only :
  let bar (d : Z) (o h l c v : Z) :=
    {| date := d; open_price := lit o; high_price := lit h;
       low_price := lit l; close_price := lit c; volume := Num (lit v) |} in
  let priceData := [bar 1672531200000 100 105 95 102 1000;
                    bar 1672617600000 102 108 98 106 1200]%Z in
  let forecasts :=
    {| predictions := [lit 110; lit 112; lit 115];
       confidence_intervals :=
         {| upper := [lit 112; lit 114; lit 117];
            lower := [lit 108; lit 110; lit 113] |} |} in
  exists l,
    confidenceData priceData forecasts = Ok (SetData l) /\
    length l = 3%nat /\
    length l <> (2 * length (predictions forecasts))%nat /\
    map value l = [Num (lit 108); Num (lit 110); Num (lit 113)] /\
    map (fun p => Qred (time p)) l
    = [inject_Z 1672621200; inject_Z 1672624800; inject_Z 1672628400] /\
    forall u, In u (upper (confidence_intervals forecasts)) ->
              ~ In (Num u) (map value l).
Proof.
  intros bar priceData forecasts. eexists. split; [vm_compute; reflexivity|].
  split; [reflexivity|]. split; [discriminate|].
  split; [reflexivity|]. split; [reflexivity|].
  intros u Hu Hin. simpl in Hu, Hin.
  repeat match goal with
         | H : _ \/ _ |- _ => destruct H as [H | H]
         | H : False |- _ => contradiction
         | H : _ = u |- _ => subst u
         | H : Num _ = Num _ |- _ => discriminate H
         end.
Qed.

End ConfidenceBand.

(* ===================================================================== *)
(** ** Further facts about maps and sorting *)
(* ===================================================================== *)

Section DistinctKeys.
Local Open Scope Q_scope.

Context {A V : Type} (key : A -> Q).

(** Setting pairwise distinct new keys appends one entry per element. *)
Lemma set_all_distinct (f : A -> V) (l : list A) (m : list (Q * V)) :
  StronglySorted (fun a b => ~ key a == key b) l ->
  Forall (fun a => Forall (fun kv => Qeq_bool (key a) (fst kv) = false) m) l ->
  map_set_all Qeq_bool key f l m = m ++ map (fun a => (key a, f a)) l.
Proof.
  intro S. revert m. induction S as [|a l S IH Ha]; intros m F; simpl.
  - now rewrite app_nil_r.
  - inversion F as [|? ? Fa Fl]; subst.
    destruct (map_set_cases m (key a) (f a))
      as [[_ ->] | (m1 & k' & v' & m2 & -> & Ek & _)].
    + rewrite IH.
      * now rewrite <- app_assoc.
      * rewrite Forall_forall in *. intros a' Ha'.
        apply Forall_app. split; [now apply Fl|].
        repeat constructor. simpl.
        destruct (Qeq_bool (key a') (key a)) eqn:E; [|reflexivity].
        apply Qeq_bool_iff in E. exfalso. apply (Ha a' Ha'). now symmetry.
    + apply Forall_app in Fa as [_ Fa]. inversion Fa; subst. simpl in *.
      congruence.
Qed.

Lemma StronglySorted_weaken {B} (R R' : B -> B -> Prop) (l : list B) :
  (forall a b, R a b -> R' a b) -> StronglySorted R l -> StronglySorted R' l.
Proof.
  intros H. induction 1 as [|a l S IH Ha]; constructor; [exact IH|].
  eapply Forall_impl; [|exact Ha]. intros b. apply H.
Qed.

End DistinctKeys.

Section SortBuilt.
Local Open Scope Q_scope.

Context {V : Type} (key : V -> Q) (cmp : V -> V -> Q).
Hypothesis cmp_key : forall a b, Qle_bool (cmp a b) 0 = true <-> key a <= key b.

(** A list sorted by key in which no key occurs twice is strictly sorted. *)
Lemma Sorted_distinct_strict (s : list V) :
  StronglySorted (fun a b => key a <= key b) s ->
  (forall v, In v s ->
     (length (filter (fun x => Qeq_bool (key v) (key x)) s) <= 1)%nat) ->
  StronglySorted (fun a b => key a < key b) s.
Proof.
  induction 1 as [|a s S IH Ha]; intro D; constructor.
  - apply IH. intros v Hv. specialize (D v (or_intror Hv)). simpl in D.
    destruct (Qeq_bool (key v) (key a)); simpl in D; lia.
  - rewrite Forall_forall in *. intros b Hb. specialize (Ha b Hb).
    destruct (Qlt_le_dec (key a) (key b)) as [L|L]; [exact L|].
    exfalso. specialize (D a (or_introl eq_refl)). simpl in D.
    rewrite Qeq_bool_refl in D. simpl in D.
    assert (Hin : In b (filter (fun x => Qeq_bool (key a) (key x)) s)).
    { apply filter_In. split; [exact Hb|]. apply Qeq_bool_iff. lra. }
    destruct (filter _ s); [contradiction | simpl in D; lia].
Qed.

(** The values of a map built from any list, once sorted by key, have
    strictly increasing keys. *)
Lemma sort_built_strict (l : list V) :
  StronglySorted (fun a b => key a < key b)
    (sort cmp (map_values (map_set_all Qeq_bool key (fun x => x) l []))).
Proof.
  destruct (built_spec key l) as (_ & M & F).
  apply Sorted_distinct_strict.
  - apply Sorted_StronglySorted; [intros a b c; lra|].
    now apply sort_sorted.
  - intros v Hv. apply (proj1 (sort_In cmp _ v)) in Hv.
    rewrite (sort_filter_stable cmp key cmp_key).
    + rewrite (F v (M v Hv)). simpl. lia.
    + intros a b Ea Eb. apply Qeq_bool_iff in Ea, Eb. now rewrite <- Ea, <- Eb.
Qed.

(** The map holds at most one entry per element. *)
Lemma map_set_length (m : list (Q * V)) (k : Q) (v : V) :
  (length (map_set Qeq_bool m k v) <= S (length m))%nat.
Proof.
  induction m as [|[k' v'] m IH]; simpl; [lia|].
  destruct (Qeq_bool k k'); simpl; lia.
Qed.

Lemma map_set_all_length {A} (kf : A -> Q) (f : A -> V) (l : list A)
  (m : list (Q * V)) :
  (length (map_set_all Qeq_bool kf f l m) <= length m + length l)%nat.
Proof.
  unfold map_set_all. revert m.
  induction l as [|a l IH]; intro m; simpl; [lia|].
  specialize (IH (map_set Qeq_bool m (kf a) (f a))).
  pose proof (map_set_length m (kf a) (f a)). lia.
Qed.

End SortBuilt.

(* ===================================================================== *)
(** ** Further facts about the chart series *)
(* ===================================================================== *)

Section PriceSeries.
Import CandlestickChart.
Local Open Scope Q_scope.

Lemma uniqueData_strict (priceData : list PricePoint) :
  StronglySorted (fun a b => timeOf a < timeOf b) (uniqueData priceData).
Proof. unfold uniqueData. apply built_sorted, sortedData_sorted. Qed.

Lemma uniqueData_In (priceData : list PricePoint) (p : PricePoint) :
  In p (uniqueData priceData) -> In p priceData.
Proof.
  unfold uniqueData. intro H.
  destruct (built_spec timeOf (sortedData priceData)) as (_ & M & _).
  apply M in H. unfold sortedData in H. now apply sort_In in H.
Qed.

Lemma uniqueData_length (priceData : list PricePoint) :
  (length (uniqueData priceData) <= length priceData)%nat.
Proof.
  unfold uniqueData, map_values. rewrite length_map.
  pose proof (map_set_all_length timeOf (fun item : PricePoint => item)
                (sortedData priceData) []) as H.
  unfold sortedData, filterDataByTimeRange in *. rewrite sort_length in H.
  simpl in H. exact H.
Qed.

(** Every timestamp of the input is a timestamp of the normalised series. *)
Lemma uniqueData_covers (priceData : list PricePoint) (p : PricePoint) :
  In p priceData ->
  exists u, In u (uniqueData priceData) /\ date u = date p.
Proof.
  intro Hp. unfold uniqueData.
  destruct (built_spec timeOf (sortedData priceData)) as (_ & _ & F).
  assert (Hs : In p (sortedData priceData))
    by (unfold sortedData; now apply sort_In).
  specialize (F p Hs).
  set (u := last _ p) in F. exists u.
  assert (Hu : In u (filter (fun v => Qeq_bool (timeOf p) (timeOf v))
                       (map_values
                          (map_set_all Qeq_bool timeOf (fun x => x)
                             (sortedData priceData) []))))
    by (rewrite F; now left).
  apply filter_In in Hu as [Hu E]. split; [exact Hu|].
  apply Qeq_bool_iff, timeOf_eq in E. now symmetry.
Qed.

(** A series with strictly increasing times goes through the map unchanged. *)
Lemma built_strict_id {V} (key : V -> Q) (l : list V) :
  StronglySorted (fun a b => key a < key b) l ->
  map_values (map_set_all Qeq_bool key (fun x => x) l []) = l.
Proof.
  intro S. rewrite set_all_distinct.
  - unfold map_values. simpl. rewrite map_map. simpl. apply map_id.
  - eapply StronglySorted_weaken; [|exact S]. cbv beta. intros a b L E. lra.
  - apply Forall_forall. intros a _. constructor.
Qed.

(** X1. Normalising is idempotent: a normalised series is sorted and holds
    each timestamp once, so sorting it and passing it through the map again
    gives the same series. *)
Theorem uniqueData_idempotent (priceData : list PricePoint) :
  uniqueData (uniqueData priceData) = uniqueData priceData.
Proof.
  pose proof (uniqueData_strict priceData) as S.
  set (u := uniqueData priceData) in *.
  unfold uniqueData at 1.
  assert (E : sortedData u = u).
  { unfold sortedData, filterDataByTimeRange. apply sort_sorted_id.
    apply StronglySorted_Sorted.
    eapply StronglySorted_weaken; [|exact S].
    cbv beta. intros a b L. apply by_date_key. lra. }
  rewrite E. now apply built_strict_id.
Qed.

(** X2. On a non-empty input the price effect sets a non-empty candlestick
    series, with at most one candle per input record, strictly increasing
    times, and every candle copied from a record of the input. *)
Theorem candlestickData_strict (priceData : list PricePoint) :
  priceData <> [] ->
  exists candles bars,
    updateChartData priceData = Some (candles, bars) /\
    candles <> [] /\
    (length candles <= length priceData)%nat /\
    StronglySorted (fun a b => Candle.time a < Candle.time b) candles /\
    forall c, In c candles ->
      exists d, In d priceData /\
        Candle.time c = timeOf d /\ Candle.open c = open_price d /\
        Candle.high c = high_price d /\ Candle.low c = low_price d /\
        Candle.close c = close_price d.
Proof.
  intro N. unfold updateChartData.
  destruct priceData as [|p0 pd] eqn:E; [contradiction|]. rewrite <- E in *.
  eexists. eexists. split; [reflexivity|].
  unfold candlestickData. split; [|split; [|split]].
  - pose proof (uniqueData_nonempty priceData N) as U.
    destruct (uniqueData priceData); [contradiction | discriminate].
  - rewrite length_map. apply uniqueData_length.
  - pose proof (uniqueData_strict priceData) as S.
    induction S as [|a l S IH Ha]; simpl; constructor; [exact IH|].
    apply Forall_map. eapply Forall_impl; [|exact Ha]. now intros b Hb.
  - intros c Hc. apply in_map_iff in Hc as (d & <- & Hd).
    exists d. split; [now apply uniqueData_In|]. repeat split.
Qed.

Lemma candlestickData_strict_witness :
  let bar (d o h l c : Z) :=
    {| date := d; open_price := lit o; high_price := lit h;
       low_price := lit l; close_price := lit c; volume := Num (lit 1000) |} in
  let priceData := [bar 1672617600000 102 108 98 106;
                    bar 1672531200000 100 105 95 102]%Z in
  priceData <> [] /\
  exists candles bars,
    updateChartData priceData = Some (candles, bars) /\
    candles <> [] /\
    (length candles <= length priceData)%nat /\
    StronglySorted (fun a b => Candle.time a < Candle.time b) candles /\
    forall c, In c candles ->
      exists d, In d priceData /\
        Candle.time c = timeOf d /\ Candle.open c = open_price d /\
        Candle.high c = high_price d /\ Candle.low c = low_price d /\
        Candle.close c = close_price d.
Proof.
  intros bar priceData. split; [discriminate|].
  apply (candlestickData_strict priceData). discriminate.
Defined.

Lemma js_or_number (v : jsval) :
  exists n, js_or v (Num (lit 0)) = Num n /\ num_eqb n n = true.
Proof.
  unfold js_or. destruct (truthy v) eqn:T.
  - destruct v as [| |[q| | |]]; try discriminate; eexists;
      (split; [reflexivity|]); simpl; auto using Qeq_bool_refl.
  - eexists. split; reflexivity.
Qed.

(** X3. The volume series is aligned with the candlestick series: the second
    map changes nothing, so there is one volume bar per candle, at the same
    time and in the same order; and the value of a bar is always a number,
    0 standing for a missing volume. *)
Theorem volumeData_aligned (priceData : list PricePoint)
  (candles : list Candle.t) (bars : list VolumeBar.t) :
  updateChartData priceData = Some (candles, bars) ->
  bars = map volumeBar (uniqueData priceData) /\
  map VolumeBar.time bars = map Candle.time candles /\
  Forall (fun b => exists n, VolumeBar.value b = Num n /\ num_eqb n n = true)
         bars.
Proof.
  unfold updateChartData. destruct priceData as [|p0 pd] eqn:E; [discriminate|].
  rewrite <- E. intros [= <- <-].
  assert (B : volumeData (uniqueData priceData)
              = map volumeBar (uniqueData priceData)).
  { unfold volumeData. rewrite set_all_distinct.
    - unfold map_values. simpl. rewrite map_map. reflexivity.
    - eapply StronglySorted_weaken; [|apply uniqueData_strict].
      cbv beta. intros a b L C. lra.
    - apply Forall_forall. intros a _. constructor. }
  rewrite B. split; [reflexivity|]. split.
  - unfold candlestickData. rewrite !map_map. reflexivity.
  - apply Forall_map, Forall_forall. intros d _. apply js_or_number.
Qed.

Lemma volumeData_aligned_witness :
  let bar (d o c : Z) (v : jsval) :=
    {| date := d; open_price := lit o; high_price := lit o;
       low_price := lit c; close_price := lit c; volume := v |} in
  let priceData := [bar 2000 102 98 Undefined; bar 1000 100 105 (Num (lit 7));
                    bar 2000 101 99 Null]%Z in
  let candles := candlestickData (uniqueData priceData) in
  let bars := volumeData (uniqueData priceData) in
  updateChartData priceData = Some (candles, bars) /\
  bars = map volumeBar (uniqueData priceData) /\
  map VolumeBar.time bars = map Candle.time candles /\
  Forall (fun b => exists n, VolumeBar.value b = Num n /\ num_eqb n n = true)
         bars.
Proof.
  intros bar priceData candles bars. split; [reflexivity|].
  apply (volumeData_aligned priceData candles bars). reflexivity.
Defined.

End PriceSeries.

Section Entries.
Local Open Scope Z_scope.

Lemma range_shift_length {A} (l : list A) (lo : Z) :
  range lo (lo + len (A := A) l) = map (fun k => lo + Z.of_nat k) (seq 0 (length l)).
Proof. unfold range, len. f_equal. f_equal. lia. Qed.

Lemma combine_range_cons {A} (x : A) (l : list A) (lo : Z) :
  combine (range lo (lo + len (x :: l))) (x :: l)
  = (lo, x) :: combine (range (lo + 1) (lo + 1 + len l)) l.
Proof.
  rewrite range_cons by (unfold len; simpl; lia). simpl. f_equal.
  f_equal. f_equal. unfold len. simpl length. lia.
Qed.

Lemma combine_range_spec {A} (l : list A) (lo : Z) :
  StronglySorted (fun a b : Z * A => fst a < fst b)
    (combine (range lo (lo + len l)) l)
  /\ Forall (fun e : Z * A => lo <= fst e)
       (combine (range lo (lo + len l)) l)
  /\ map snd (combine (range lo (lo + len l)) l) = l
  /\ forall i x, nth_error l i = Some x ->
       nth_error (combine (range lo (lo + len l)) l) i
       = Some (lo + Z.of_nat i, x).
Proof.
  revert lo. induction l as [|x l IH]; intro lo.
  - rewrite range_empty by (unfold len; simpl; lia). simpl.
    repeat split; try constructor. intros [|i] y; discriminate.
  - rewrite combine_range_cons.
    destruct (IH (lo + 1)) as (S & F & M & N).
    split; [|split; [|split]].
    + constructor; [exact S|]. eapply Forall_impl; [|exact F].
      intros e He. simpl in *. lia.
    + constructor; [simpl; lia|]. eapply Forall_impl; [|exact F].
      intros e He. simpl in *. lia.
    + simpl. now rewrite M.
    + intros [|i] y Hy; simpl in *.
      * injection Hy as <-. f_equal. f_equal. lia.
      * rewrite (N i y Hy). f_equal. f_equal. lia.
Qed.

Lemma entries_sorted {A} (l : list A) :
  StronglySorted (fun a b : Z * A => fst a < fst b) (entries l).
Proof. apply (combine_range_spec l 0). Qed.

Lemma entries_snd {A} (l : list A) : map snd (entries l) = l.
Proof. apply (combine_range_spec l 0). Qed.

Lemma entries_length {A} (l : list A) : length (entries l) = length l.
Proof. rewrite <- (entries_snd l) at 2. now rewrite length_map. Qed.

Lemma entries_nth {A} (l : list A) (i : nat) (x : A) :
  nth_error l i = Some x -> nth_error (entries l) i = Some (Z.of_nat i, x).
Proof.
  intro H. unfold entries.
  destruct (combine_range_spec l 0) as (_ & _ & _ & N).
  exact (N i x H).
Qed.

Lemma entries_fst_bounds {A} (l : list A) (e : Z * A) :
  In e (entries l) -> 0 <= fst e.
Proof.
  destruct (combine_range_spec l 0) as (_ & F & _).
  rewrite Forall_forall in F. apply F.
Qed.

End Entries.

Section ForecastLine.
Import CandlestickChart.
Local Open Scope Q_scope.

Lemma forecastTime_lt (lastTime : Q) (i j : Z) :
  (i < j)%Z -> forecastTime lastTime i < forecastTime lastTime j.
Proof.
  intro H. unfold forecastTime.
  assert (L : inject_Z (i + 1) < inject_Z (j + 1))
    by (rewrite <- Zlt_Qlt; lia).
  revert L. generalize (inject_Z (i + 1)), (inject_Z (j + 1)).
  intros a b L. lra.
Qed.

Lemma forecastTime_after (lastTime : Q) (i : Z) :
  (0 <= i)%Z -> lastTime < forecastTime lastTime i.
Proof.
  intro H. unfold forecastTime.
  assert (L : 0 < inject_Z (i + 1))
    by (change 0 with (inject_Z 0); rewrite <- Zlt_Qlt; lia).
  revert L. generalize (inject_Z (i + 1)). intros a L. lra.
Qed.

Lemma by_time_key (a b : point) :
  Qle_bool (by_time a b) 0 = true <-> time a <= time b.
Proof. rewrite Qle_bool_iff. unfold by_time. split; intro; lra. Qed.

(** The last element of a strictly sorted array is above all the others. *)
Lemma last_is_greatest {A} (R : A -> A -> Prop) (l : list A) (x : A) :
  StronglySorted R l -> nth_error l (length l - 1) = Some x ->
  forall y, In y l -> y = x \/ R y x.
Proof.
  induction 1 as [|a l S IH Ha]; intros E y Hy; [contradiction|].
  destruct l as [|b l].
  - simpl in E. injection E as <-. destruct Hy as [-> | []]. now left.
  - assert (E' : nth_error (b :: l) (length (b :: l) - 1) = Some x).
    { simpl in *. now rewrite Nat.sub_0_r in *. }
    destruct Hy as [-> | Hy].
    + right. rewrite Forall_forall in Ha. apply Ha.
      now apply nth_error_In in E'.
    + now apply IH.
Qed.

(** The point the forecast starts from is the latest record of the input. *)
Lemma lastDataPoint_latest (priceData : list PricePoint) (lastPoint : PricePoint) :
  lastDataPoint (uniqueData priceData) = Ok lastPoint ->
  In lastPoint priceData /\
  forall p, In p priceData -> (date p <= date lastPoint)%Z.
Proof.
  unfold lastDataPoint.
  destruct (nth_error _ _) as [x|] eqn:E; [|discriminate]. intros [= ->].
  split; [apply uniqueData_In; now apply nth_error_In in E|].
  intros p Hp. destruct (uniqueData_covers priceData p Hp) as (u & Hu & <-).
  destruct (last_is_greatest _ _ _ (uniqueData_strict priceData) E u Hu)
    as [-> | L]; [lia|].
  apply timeOf_le. lra.
Qed.

(** The forecast line, for every non-empty price series. *)
Lemma forecastData_eq (priceData : list PricePoint) (forecasts : forecast)
  (lastPoint : PricePoint) :
  priceData <> [] ->
  lastDataPoint (uniqueData priceData) = Ok lastPoint ->
  forecastData priceData forecasts
  = Ok (SetData
          (map (fun e : Z * num =>
                  {| time := forecastTime (timeOf lastPoint) (fst e);
                     value := Num (snd e) |})
               (entries (predictions forecasts)))).
Proof.
  intros N Ep. unfold forecastData.
  destruct priceData as [|p0 pd]; [contradiction|].
  rewrite Ep. cbn [bind]. do 2 f_equal.
  unfold forecastMap. rewrite set_all_distinct.
  - unfold map_values. simpl. rewrite map_map. cbn [snd].
    apply sort_sorted_id. apply StronglySorted_Sorted.
    pose proof (entries_sorted (predictions forecasts)) as S.
    induction S as [|a l S IH Ha]; simpl; constructor; [exact IH|].
    apply Forall_map. eapply Forall_impl; [|exact Ha].
    intros b Hb. apply by_time_key. cbn [time].
    apply Qlt_le_weak. now apply forecastTime_lt.
  - eapply StronglySorted_weaken; [|apply entries_sorted].
    cbv beta. intros a b L E. apply forecastTime_inj in E. lia.
  - apply Forall_forall. intros a _. constructor.
Qed.

(** X4. On a non-empty price series the forecast line has one point per
    prediction, in the order of the predictions, at the times one hour
    apart that follow the latest record of the input; its times increase
    strictly, and every one of them is later than every record. *)
Theorem forecastData_shape (priceData : list PricePoint)
  (forecasts : forecast) :
  priceData <> [] ->
  exists lastPoint pts,
    In lastPoint priceData /\
    (forall p, In p priceData -> (date p <= date lastPoint)%Z) /\
    forecastData priceData forecasts = Ok (SetData pts) /\
    length pts = length (predictions forecasts) /\
    (forall i x, nth_error (predictions forecasts) i = Some x ->
       nth_error pts i
       = Some {| time := timeOf lastPoint + inject_Z (Z.of_nat i + 1) * 3600;
                 value := Num x |}) /\
    StronglySorted (fun a b => time a < time b) pts /\
    forall pt p, In pt pts -> In p priceData -> timeOf p < time pt.
Proof.
  intro N.
  destruct (lastDataPoint_Ok (uniqueData priceData)
              (uniqueData_nonempty priceData N)) as (lp & Ep & _).
  destruct (lastDataPoint_latest priceData lp Ep) as (Hin & Hmax).
  exists lp. eexists. split; [exact Hin|]. split; [exact Hmax|].
  split; [exact (forecastData_eq priceData forecasts lp N Ep)|].
  split; [now rewrite length_map, entries_length|]. split; [|split].
  - intros i x Hx. rewrite nth_error_map, (entries_nth _ i x Hx). reflexivity.
  - pose proof (entries_sorted (predictions forecasts)) as S.
    induction S as [|a l S IH Ha]; simpl; constructor; [exact IH|].
    apply Forall_map. eapply Forall_impl; [|exact Ha].
    intros b Hb. cbn [time]. now apply forecastTime_lt.
  - intros pt p Hpt Hp. apply in_map_iff in Hpt as (e & <- & He).
    cbn [time]. apply entries_fst_bounds in He.
    pose proof (forecastTime_after (timeOf lp) (fst e) He).
    pose proof (proj2 (timeOf_le p lp) (Hmax p Hp)). lra.
Qed.

Lemma forecastData_shape_witness :
  let bar (d c : Z) :=
    {| date := d; open_price := lit c; high_price := lit c;
       low_price := lit c; close_price := lit c; volume := Undefined |} in
  let priceData := [bar 1672617600000 106; bar 1672531200000 102]%Z in
  let forecasts :=
    {| predictions := [lit 110; lit 112; lit 115];
       confidence_intervals :=
         {| upper := [lit 112; lit 114; lit 117];
            lower := [lit 108; lit 110; lit 113] |} |} in
  priceData <> [] /\
  exists lastPoint pts,
    In lastPoint priceData /\
    (forall p, In p priceData -> (date p <= date lastPoint)%Z) /\
    forecastData priceData forecasts = Ok (SetData pts) /\
    length pts = length (predictions forecasts) /\
    (forall i x, nth_error (predictions forecasts) i = Some x ->
       nth_error pts i
       = Some {| time := timeOf lastPoint + inject_Z (Z.of_nat i + 1) * 3600;
                 value := Num x |}) /\
    StronglySorted (fun a b => time a < time b) pts /\
    forall pt p, In pt pts -> In p priceData -> timeOf p < time pt.
Proof.
  intros bar priceData forecasts. split; [discriminate|].
  apply (forecastData_shape priceData forecasts). discriminate.
Defined.

End ForecastLine.

Section ErrorOverlay.
Import CandlestickChart.
Local Open Scope Q_scope.

(** X5. The error overlay. Without prediction errors the series is cleared;
    without a forecast nothing is set. Otherwise there is one point per
    prediction error, in the order received, neither sorted nor
    deduplicated, carrying the error value; and an error that points at a
    step of the forecast sits at the time of that step's point on the
    forecast line. *)
Theorem errorData_aligned (priceData : list PricePoint) (forecasts : forecast)
  (predictionErrors : list PredictionError) :
  priceData <> [] -> predictionErrors <> [] ->
  errorData priceData (Some forecasts) [] = Ok (SetData []) /\
  errorData priceData None predictionErrors = Ok NoUpdate /\
  exists pts,
    errorData priceData (Some forecasts) predictionErrors = Ok (SetData pts) /\
    length pts = length predictionErrors /\
    forall i e, nth_error predictionErrors i = Some e ->
      exists pt,
        nth_error pts i = Some pt /\
        value pt = Num (error_value e) /\
        ((0 <= prediction_index e < len (predictions forecasts))%Z ->
         exists line fpt,
           forecastData priceData forecasts = Ok (SetData line) /\
           nth_error line (Z.to_nat (prediction_index e)) = Some fpt /\
           time fpt = time pt).
Proof.
  intros N Ne. split; [reflexivity|].
  split; [destruct predictionErrors; [contradiction | reflexivity]|].
  destruct (lastDataPoint_Ok (uniqueData priceData)
              (uniqueData_nonempty priceData N)) as (lp & Ep & _).
  unfold errorData.
  destruct predictionErrors as [|e0 errs] eqn:Ee; [contradiction|].
  rewrite <- Ee. destruct priceData as [|p0 pd] eqn:Epd; [contradiction|].
  rewrite <- Epd in *. rewrite Ep. cbn [bind].
  eexists. split; [reflexivity|]. split; [now rewrite length_map|].
  intros i e He. rewrite nth_error_map, He. cbn [option_map].
  eexists. split; [reflexivity|]. split; [reflexivity|].
  intros [Hlo Hhi].
  rewrite (forecastData_eq priceData forecasts lp N Ep).
  destruct (nth_error (predictions forecasts) (Z.to_nat (prediction_index e)))
    as [x|] eqn:Ex.
  - eexists. eexists. split; [reflexivity|].
    rewrite nth_error_map, (entries_nth _ _ x Ex). cbn [option_map].
    split; [reflexivity|]. cbn [time fst]. unfold forecastTime.
    now rewrite Z2Nat.id by exact Hlo.
  - apply nth_error_None in Ex. unfold len in Hhi. lia.
Qed.

Lemma errorData_aligned_witness :
  let bar (d c : Z) :=
    {| date := d; open_price := lit c; high_price := lit c;
       low_price := lit c; close_price := lit c; volume := Undefined |} in
  let priceData := [bar 1672617600000 106; bar 1672531200000 102]%Z in
  let forecasts :=
    {| predictions := [lit 110; lit 112; lit 115];
       confidence_intervals :=
         {| upper := [lit 112; lit 114; lit 117];
            lower := [lit 108; lit 110; lit 113] |} |} in
  let predictionErrors :=
    [{| prediction_index := 2; error_value := lit 3 |};
     {| prediction_index := 0; error_value := lit 1 |};
     {| prediction_index := 2; error_value := lit 4 |}] in
  priceData <> [] /\ predictionErrors <> [] /\
  errorData priceData (Some forecasts) [] = Ok (SetData []) /\
  errorData priceData None predictionErrors = Ok NoUpdate /\
  exists pts,
    errorData priceData (Some forecasts) predictionErrors = Ok (SetData pts) /\
    length pts = length predictionErrors /\
    forall i e, nth_error predictionErrors i = Some e ->
      exists pt,
        nth_error pts i = Some pt /\
        value pt = Num (error_value e) /\
        ((0 <= prediction_index e < len (predictions forecasts))%Z ->
         exists line fpt,
           forecastData priceData forecasts = Ok (SetData line) /\
           nth_error line (Z.to_nat (prediction_index e)) = Some fpt /\
           time fpt = time pt).
Proof.
  intros bar priceData forecasts predictionErrors.
  split; [discriminate|]. split; [discriminate|].
  apply (errorData_aligned priceData forecasts predictionErrors);
    discriminate.
Defined.

End ErrorOverlay.

Section NearestPoint.
Import CandlestickChart.
Local Open Scope Z_scope.

(** The scan keeps the first of the nearest points met so far. *)
Lemma scan_spec (metricDate : Z) (todo pre post : list PricePoint)
  (c : PricePoint) :
  Forall (fun p => Z.abs (date c - metricDate) < Z.abs (date p - metricDate))
         pre ->
  Forall (fun p => Z.abs (date c - metricDate) <= Z.abs (date p - metricDate))
         post ->
  let st :=
    fold_left
      (fun (st : PricePoint * Z) pricePoint =>
         let diff := Z.abs (date pricePoint - metricDate) in
         if diff <? snd st then (pricePoint, diff) else st)
      todo (c, Z.abs (date c - metricDate)) in
  exists pre' post',
    pre ++ c :: post ++ todo = pre' ++ fst st :: post' /\
    Forall (fun p => Z.abs (date (fst st) - metricDate)
                     < Z.abs (date p - metricDate)) pre' /\
    Forall (fun p => Z.abs (date (fst st) - metricDate)
                     <= Z.abs (date p - metricDate)) post'.
Proof.
  revert pre post c. induction todo as [|p todo IH]; intros pre post c Fpre Fpost.
  - exists pre, post. simpl. rewrite app_nil_r. auto.
  - cbn [fold_left]. cbv zeta. cbn [snd].
    destruct (Z.abs (date p - metricDate) <? Z.abs (date c - metricDate))
      eqn:E.
    + apply Z.ltb_lt in E.
      destruct (IH (pre ++ c :: post) [] p) as (pre' & post' & Eq & F1 & F2).
      * apply Forall_app. split.
        -- eapply Forall_impl; [|exact Fpre]. intros a Ha. simpl in Ha. lia.
        -- constructor; [exact E|].
           eapply Forall_impl; [|exact Fpost]. intros a Ha. simpl in Ha. lia.
      * constructor.
      * exists pre', post'. split; [|split; [exact F1 | exact F2]].
        etransitivity; [|exact Eq]. rewrite <- !app_assoc. reflexivity.
    + apply Z.ltb_ge in E.
      destruct (IH pre (post ++ [p]) c) as (pre' & post' & Eq & F1 & F2).
      * exact Fpre.
      * apply Forall_app. split; [exact Fpost|]. now constructor.
      * exists pre', post'. split; [|split; [exact F1 | exact F2]].
        etransitivity; [|exact Eq]. rewrite <- !app_assoc. reflexivity.
Qed.

(** X6. The price point matched to a portfolio date is a nearest one: it
    belongs to the series, no point of the series is nearer to the date,
    and every point before it in the series is strictly farther, so that of
    two points at the same distance the first one is taken. *)
Theorem closestPricePoint_nearest (first : PricePoint)
  (rest : list PricePoint) (metricDate : Z) :
  let c := closestPricePoint first (first :: rest) metricDate in
  exists pre post,
    first :: rest = pre ++ c :: post /\
    Forall (fun p => Z.abs (date c - metricDate) < Z.abs (date p - metricDate))
           pre /\
    Forall (fun p => Z.abs (date c - metricDate) <= Z.abs (date p - metricDate))
           post.
Proof.
  cbv zeta. unfold closestPricePoint. cbn [fold_left]. cbv zeta. cbn [snd].
  rewrite Z.ltb_irrefl.
  destruct (scan_spec metricDate rest [] [] first) as (pre & post & E & F);
    [constructor | constructor |].
  exists pre, post. split; [exact E | exact F].
Qed.

Lemma closestPricePoint_In (first : PricePoint) (rest : list PricePoint)
  (metricDate : Z) :
  In (closestPricePoint first (first :: rest) metricDate) (first :: rest).
Proof.
  destruct (scan_spec metricDate rest [] [] first) as (pre & post & E & _);
    [constructor | constructor |].
  unfold closestPricePoint. cbn [fold_left]. cbv zeta. cbn [snd].
  rewrite Z.ltb_irrefl. simpl in E. rewrite E.
  apply in_app_iff. right. now left.
Qed.

End NearestPoint.

Section PortfolioLine.
Import CandlestickChart.
Local Open Scope Q_scope.

Lemma mapM_Ok_Forall2 {A B} (body : A -> result B) (l : list A) (xs : list B) :
  mapM body l = Ok xs -> Forall2 (fun i x => body i = Ok x) l xs.
Proof.
  revert xs. induction l as [|i l IH]; intros xs; simpl.
  - intros [= <-]. constructor.
  - destruct (body i) as [x|e] eqn:Ex; [|discriminate]. cbn [bind].
    destruct (mapM body l) as [ys|e]; [|discriminate]. cbn [bind].
    intros [= <-]. constructor; [exact Ex | now apply IH].
Qed.

(** X7. Whatever the portfolio history, the line the portfolio effect sets
    has strictly increasing times, at most one point per metric, and every
    point sits at the time of a point of the normalised price series. *)
Theorem uniquePortfolioData_strict (priceData : list PricePoint)
  (portfolioValueHistory : list PortfolioMetricPoint)
  (initialCapital : jsval) (l : list point) :
  uniquePortfolioData priceData portfolioValueHistory initialCapital
  = Ok (SetData l) ->
  StronglySorted (fun a b => time a < time b) l /\
  (length l <= length portfolioValueHistory)%nat /\
  forall pt, In pt l ->
    exists p, In p (uniqueData priceData) /\ time pt = timeOf p.
Proof.
  unfold uniquePortfolioData.
  destruct portfolioValueHistory as [|m0 history] eqn:Eh.
  { intros [= <-]. repeat split; [constructor | simpl; lia | intros pt []]. }
  rewrite <- Eh. destruct priceData as [|p0 pd] eqn:Ep; [discriminate|].
  rewrite <- Ep. unfold portfolioData.
  destruct (mapM _ portfolioValueHistory) as [pts|e] eqn:Em; [|discriminate].
  cbn [bind]. apply mapM_Ok_Forall2 in Em.
  set (s := sort by_time _).
  assert (Es : s = sort by_time
                     (map_values (map_set_all Qeq_bool time (fun item => item)
                                    pts []))) by reflexivity.
  destruct s as [|pt0 s'] eqn:E0; [discriminate|]. intros [= <-].
  rewrite Es. split; [|split].
  - apply sort_built_strict. exact by_time_key.
  - rewrite sort_length. unfold map_values. rewrite length_map.
    pose proof (map_set_all_length time (fun item : point => item) pts []) as L.
    rewrite <- (Forall2_length_eq _ _ _ Em). simpl in L. exact L.
  - intros pt Hpt. apply sorted_values_In in Hpt.
    destruct (Forall2_In_r _ _ _ _ Em Hpt) as (metric & _ & Ept).
    unfold portfolioPoint in Ept.
    destruct (uniqueData priceData) as [|first rest] eqn:Eu; [discriminate|].
    injection Ept as <-. cbn [time].
    eexists. split; [|reflexivity]. apply closestPricePoint_In.
Qed.

Lemma uniquePortfolioData_strict_witness :
  let bar (d c : Z) :=
    {| date := d; open_price := lit c; high_price := lit c;
       low_price := lit c; close_price := lit c; volume := Undefined |} in
  let priceData := [bar 3000 1; bar 1000 2; bar 2000 4]%Z in
  let history :=
    [{| metric_date := 2900; total_value := Num (lit 7) |};
     {| metric_date := 1500; total_value := Num (lit 0) |};
     {| metric_date := 2800; total_value := Null |}] in
  let l := [{| time := inject_Z 1000 / 1000; value := Num (lit 500) |};
            {| time := inject_Z 3000 / 1000; value := Num (lit 500) |}] in
  uniquePortfolioData priceData history (Num (lit 500)) = Ok (SetData l) /\
  StronglySorted (fun a b => time a < time b) l /\
  (length l <= length history)%nat /\
  forall pt, In pt l ->
    exists p, In p (uniqueData priceData) /\ time pt = timeOf p.
Proof.
  intros bar priceData history l. split; [reflexivity|].
  apply (uniquePortfolioData_strict priceData history (Num (lit 500)) l).
  reflexivity.
Defined.

End PortfolioLine.

(* ===================================================================== *)
(** ** Further facts about the indicators *)
(* ===================================================================== *)

Section LoopsThrow.
Import TechnicalIndicators.
Local Open Scope Z_scope.

Lemma reduce1_Ok {A} (f : A -> A -> A) (w : list A) :
  0 < len w -> exists s, reduce1 f w = Ok s.
Proof.
  destruct w as [|x w]; [unfold len; simpl; lia|]. intros _.
  eexists. reflexivity.
Qed.

Lemma slice_0_0 {A} (l : list A) : slice l 0 0 = [].
Proof.
  unfold slice. simpl. rewrite Z.min_l by lia. reflexivity.
Qed.

(** The RSI loop on any closes, for a period of at least 1. *)
Lemma calculateRSI_total (prices : list num) (period : Z) :
  1 <= period ->
  exists out, calculateRSI prices period = Ok out /\
              len out = Z.max 0 (len prices - period).
Proof.
  intro Hp. unfold calculateRSI, for_push.
  set (g := gains prices). set (l := losses prices).
  assert (Ll : len l = len g)
    by (unfold l, g; now rewrite len_gains, len_losses).
  destruct (mapM_total (rsi_at g l period) (fun _ _ => True)
              (range (period - 1) (len g))) as (out & E & F).
  { intros i Hi. apply In_range in Hi. unfold rsi_at.
    destruct (reduce1_Ok num_add (slice g (i - period + 1) (i + 1)))
      as (sg & ->); [rewrite slice_length by lia; lia|].
    destruct (reduce1_Ok num_add (slice l (i - period + 1) (i + 1)))
      as (sl & ->); [rewrite slice_length by lia; lia|].
    cbn [bind]. destruct (num_eqb _ _); eexists; split; auto. }
  exists out. split; [exact E|].
  apply Forall2_length_eq in F. rewrite range_length in F.
  unfold g in F. rewrite len_gains in F. unfold len in *. lia.
Qed.

(** The Bollinger loop on any closes, for a period of at least 1. *)
Lemma calculateBollingerBands_total (sqrtQ : Q -> Q) (prices : list num)
  (period : Z) (stdDev : num) :
  1 <= period ->
  exists b, calculateBollingerBands sqrtQ prices period stdDev = Ok b /\
            len (sma b) = Z.max 0 (len prices - period + 1) /\
            len (upperBand b) = Z.max 0 (len prices - period + 1) /\
            len (lowerBand b) = Z.max 0 (len prices - period + 1).
Proof.
  intro Hp. unfold calculateBollingerBands, for_push.
  destruct (mapM_total (bollinger_at sqrtQ prices period stdDev)
              (fun _ _ => True) (range (period - 1) (len prices)))
    as (rows & E & F).
  { intros i Hi. apply In_range in Hi. unfold bollinger_at.
    destruct (reduce1_Ok num_add (slice prices (i - period + 1) (i + 1)))
      as (s & ->); [rewrite slice_length by lia; lia|].
    cbn [bind]. eexists. split; auto. }
  rewrite E. cbn [bind]. eexists. split; [reflexivity|].
  cbn [sma upperBand lowerBand]. rewrite !len_map.
  apply Forall2_length_eq in F. rewrite range_length in F.
  unfold len in *. lia.
Qed.

(** X9. The loops of the RSI and of the Bollinger bands throw for no input
    when the period is at least 1, and give [max 0 (len - period)] and
    [max 0 (len - period + 1)] samples; with a period of 0 both throw on
    every input, the empty one included, as the first window is empty and
    [reduce] has no initial value. The stochastic oscillator and the MACD
    have nothing that throws. *)
Theorem indicator_loops_throw (sqrtQ : Q -> Q) (prices : list num)
  (period : Z) (stdDev : num) :
  1 <= period ->
  (exists out, calculateRSI prices period = Ok out /\
               len out = Z.max 0 (len prices - period)) /\
  (exists b, calculateBollingerBands sqrtQ prices period stdDev = Ok b /\
             len (sma b) = Z.max 0 (len prices - period + 1) /\
             len (upperBand b) = Z.max 0 (len prices - period + 1) /\
             len (lowerBand b) = Z.max 0 (len prices - period + 1)) /\
  calculateRSI prices 0 = Throw TypeError /\
  calculateBollingerBands sqrtQ prices 0 stdDev = Throw TypeError.
Proof.
  intro Hp. split; [now apply calculateRSI_total|].
  split; [now apply calculateBollingerBands_total|]. split.
  - unfold calculateRSI, for_push.
    rewrite range_cons by (pose proof (len_nonneg (gains prices)); lia).
    cbn [mapM]. unfold rsi_at at 1.
    replace (0 - 1 - 0 + 1) with 0 by lia. replace (0 - 1 + 1) with 0 by lia.
    rewrite slice_0_0. reflexivity.
  - unfold calculateBollingerBands, for_push.
    rewrite range_cons by (pose proof (len_nonneg prices); lia).
    cbn [mapM]. unfold bollinger_at at 1.
    replace (0 - 1 - 0 + 1) with 0 by lia. replace (0 - 1 + 1) with 0 by lia.
    rewrite slice_0_0. reflexivity.
Qed.

Lemma indicator_loops_throw_witness :
  1 <= 14 /\
  (exists out, calculateRSI [NaN; lit 1; PInf] 14 = Ok out /\
               len out = Z.max 0 (len [NaN; lit 1; PInf] - 14)) /\
  (exists b, calculateBollingerBands sqrt_down [NaN; lit 1; PInf] 14 (lit 2)
             = Ok b /\
             len (sma b) = Z.max 0 (len [NaN; lit 1; PInf] - 14 + 1) /\
             len (upperBand b) = Z.max 0 (len [NaN; lit 1; PInf] - 14 + 1) /\
             len (lowerBand b) = Z.max 0 (len [NaN; lit 1; PInf] - 14 + 1)) /\
  calculateRSI [NaN; lit 1; PInf] 0 = Throw TypeError /\
  calculateBollingerBands sqrt_down [NaN; lit 1; PInf] 0 (lit 2)
  = Throw TypeError.
Proof.
  split; [discriminate|].
  apply (indicator_loops_throw sqrt_down [NaN; lit 1; PInf] 14 (lit 2)).
  discriminate.
Defined.

End LoopsThrow.

Section StochasticBounds.
Import TechnicalIndicators.
Local Open Scope Q_scope.

Lemma fold_max_Fin (w : list Q) (a : Q) :
  exists h, fold_left max2 (map Fin w) (Fin a) = Fin h /\
            a <= h /\ Forall (fun x => x <= h) w.
Proof.
  revert a. induction w as [|x w IH]; intro a; simpl.
  - exists a. repeat split; [lra | constructor].
  - destruct (a ?= x) eqn:E.
    + destruct (IH a) as (h & -> & Ha & F). exists h.
      apply Qeq_alt in E. repeat split; [exact Ha|].
      constructor; [lra | exact F].
    + destruct (IH x) as (h & -> & Hx & F). exists h.
      apply Qlt_alt in E. repeat split; [lra|].
      constructor; [exact Hx | exact F].
    + destruct (IH a) as (h & -> & Ha & F). exists h.
      apply Qgt_alt in E. repeat split; [exact Ha|].
      constructor; [lra | exact F].
Qed.

Lemma fold_min_Fin (w : list Q) (a : Q) :
  exists l, fold_left min2 (map Fin w) (Fin a) = Fin l /\
            l <= a /\ Forall (fun x => l <= x) w.
Proof.
  revert a. induction w as [|x w IH]; intro a; simpl.
  - exists a. repeat split; [lra | constructor].
  - destruct (x ?= a) eqn:E.
    + destruct (IH a) as (l & -> & Ha & F). exists l.
      apply Qeq_alt in E. repeat split; [exact Ha|].
      constructor; [lra | exact F].
    + destruct (IH x) as (l & -> & Hx & F). exists l.
      apply Qlt_alt in E. repeat split; [lra|].
      constructor; [exact Hx | exact F].
    + destruct (IH a) as (l & -> & Ha & F). exists l.
      apply Qgt_alt in E. repeat split; [exact Ha|].
      constructor; [lra | exact F].
Qed.

(** The highest high of a non-empty window of finite values. *)
Lemma Math_max_Fin (w : list Q) :
  w <> [] ->
  exists h, Math_max (map Fin w) = Fin h /\ Forall (fun x => x <= h) w.
Proof.
  destruct w as [|x w]; [contradiction|]. intros _. unfold Math_max. simpl.
  destruct (fold_max_Fin w x) as (h & E & Hx & F).
  exists h. split; [exact E | now constructor].
Qed.

Lemma Math_min_Fin (w : list Q) :
  w <> [] ->
  exists l, Math_min (map Fin w) = Fin l /\ Forall (fun x => l <= x) w.
Proof.
  destruct w as [|x w]; [contradiction|]. intros _. unfold Math_min. simpl.
  destruct (fold_min_Fin w x) as (l & E & Hx & F).
  exists l. split; [exact E | now constructor].
Qed.

Lemma slice_last_In (w : list Q) (k period : Z) :
  (1 <= period)%Z -> (0 <= k)%Z -> (k + period <= len w)%Z ->
  In (nth (Z.to_nat (k + period - 1)) w 0) (slice w k (k + period)).
Proof.
  intros Hp Hk Hl.
  replace (nth (Z.to_nat (k + period - 1)) w 0)
    with (nth (Z.to_nat (period - 1)) (slice w k (k + period)) 0).
  - apply nth_In. pose proof (slice_length w k (k + period)) as L.
    unfold len in *. lia.
  - rewrite slice_nth by lia. f_equal. lia.
Qed.

(** X10. On bars with finite values and [low <= close <= high], and for a
    period of at least 1, the stochastic oscillator gives
    [len - period + 1] samples (none on a shorter input); the sample of a
    window whose highest high is above its lowest low is a finite value in
    the closed interval from 0 to 100, and only a flat window gives a
    sample that is not finite. *)
Theorem calculateStochastic_bounds (hs ls cs : list Q) (period : Z) :
  (1 <= period)%Z -> len hs = len cs -> len ls = len cs ->
  (forall j, (j < length cs)%nat -> nth j ls 0 <= nth j cs 0 <= nth j hs 0) ->
  let out := calculateStochastic (map Fin hs) (map Fin ls) (map Fin cs) period in
  len out = Z.max 0 (len cs - period + 1) /\
  forall k, (0 <= k < len cs - period + 1)%Z ->
    exists h l,
      Math_max (slice (map Fin hs) k (k + period)) = Fin h /\
      Math_min (slice (map Fin ls) k (k + period)) = Fin l /\
      l <= h /\
      (l < h -> within 0 100 (get out k)) /\
      (l == h -> is_finite (get out k) = false).
Proof.
  intros Hp Lh Ll V out. split.
  { unfold out, calculateStochastic. rewrite len_map, len_map.
    unfold len. rewrite range_length. lia. }
  intros k Hk.
  assert (Eo : get out k
               = stochastic_at (map Fin hs) (map Fin ls) (map Fin cs) period
                   (k + period - 1)).
  { unfold out, calculateStochastic.
    rewrite get_nth
      by (rewrite len_map, len_map; unfold len in *; rewrite range_length; lia).
    rewrite nth_map_range by (rewrite len_map; lia). f_equal. lia. }
  assert (Nh : slice hs k (k + period) <> []).
  { apply len_nonempty. rewrite slice_length by lia. lia. }
  assert (Nl : slice ls k (k + period) <> []).
  { apply len_nonempty. rewrite slice_length by lia. lia. }
  destruct (Math_max_Fin _ Nh) as (h & Eh & Fh).
  destruct (Math_min_Fin _ Nl) as (l & El & Fl).
  rewrite <- slice_map in Eh, El.
  exists h, l. split; [exact Eh|]. split; [exact El|].
  set (i := Z.to_nat (k + period - 1)).
  assert (Hi : (i < length cs)%nat) by (unfold i, len in *; lia).
  specialize (V i Hi).
  assert (Hh : nth i hs 0 <= h).
  { rewrite Forall_forall in Fh. apply Fh. apply slice_last_In; lia. }
  assert (Hl : l <= nth i ls 0).
  { rewrite Forall_forall in Fl. apply Fl. apply slice_last_In; lia. }
  split; [lra|]. split.
  - intro Lt. rewrite Eo. unfold stochastic_at.
    replace (k + period - 1 - period + 1)%Z with k by lia.
    replace (k + period - 1 + 1)%Z with (k + period)%Z by lia.
    rewrite Eh, El, get_map_Fin by lia. fold i.
    cbn [num_sub num_neg num_add num_div].
    destruct (Qeq_bool (h + - l) 0) eqn:Z0;
      [apply Qeq_bool_iff in Z0; lra|].
    unfold lit. cbn [num_mul within].
    set (c := nth i cs 0) in *.
    assert (D : 0 < h + - l) by lra.
    assert (A : 0 <= (c + - l) / (h + - l))
      by (apply Qdiv_nonneg; lra).
    assert (B : (c + - l) / (h + - l) <= 1)
      by (apply Qle_shift_div_r; lra).
    change (inject_Z 100) with 100. lra.
  - intro Eq. rewrite Eo.
    apply (stochastic_at_flat _ _ _ _ _ h l); [| |lra].
    + replace (k + period - 1 - period + 1)%Z with k by lia.
      now replace (k + period - 1 + 1)%Z with (k + period)%Z by lia.
    + replace (k + period - 1 - period + 1)%Z with k by lia.
      now replace (k + period - 1 + 1)%Z with (k + period)%Z by lia.
Qed.

Lemma calculateStochastic_bounds_witness :
  let hs := [6; 7; 7; 9] in
  let ls := [4; 5; 7; 6] in
  let cs := [5; 6; 7; 8] in
  (1 <= 2)%Z /\ len hs = len cs /\ len ls = len cs /\
  (forall j, (j < length cs)%nat -> nth j ls 0 <= nth j cs 0 <= nth j hs 0) /\
  let out := calculateStochastic (map Fin hs) (map Fin ls) (map Fin cs) 2 in
  len out = Z.max 0 (len cs - 2 + 1) /\
  forall k, (0 <= k < len cs - 2 + 1)%Z ->
    exists h l,
      Math_max (slice (map Fin hs) k (k + 2)) = Fin h /\
      Math_min (slice (map Fin ls) k (k + 2)) = Fin l /\
      l <= h /\
      (l < h -> within 0 100 (get out k)) /\
      (l == h -> is_finite (get out k) = false).
Proof.
  intros hs ls cs. split; [discriminate|]. split; [reflexivity|].
  split; [reflexivity|].
  assert (V : forall j, (j < length cs)%nat ->
                        nth j ls 0 <= nth j cs 0 <= nth j hs 0).
  { intros j Hj. do 4 (destruct j as [|j]; [split; discriminate|]).
    simpl in Hj. lia. }
  split; [exact V|].
  apply (calculateStochastic_bounds hs ls cs 2);
    [discriminate | reflexivity | reflexivity | exact V].
Defined.

End StochasticBounds.

Section NoLookAhead.
Import TechnicalIndicators.
Local Open Scope Z_scope.

Lemma ema_loop_firstn (multiplier prev : num) (rest : list num) (n : nat) :
  ema_loop multiplier prev (firstn n rest)
  = firstn n (ema_loop multiplier prev rest).
Proof.
  revert prev n. induction rest as [|p rest IH]; intros prev [|n]; simpl;
    try reflexivity.
  now rewrite IH.
Qed.

Lemma calculateEMA_firstn (prices : list num) (period : Z) (n : nat) :
  (1 <= n)%nat ->
  calculateEMA (firstn n prices) period
  = firstn n (calculateEMA prices period).
Proof.
  intro Hn. destruct n as [|n]; [lia|]. unfold calculateEMA.
  destruct prices as [|p prices]; simpl.
  - now destruct n.
  - change (get (p :: firstn n prices) 0) with p.
    change (get (p :: prices) 0) with p.
    now rewrite ema_loop_firstn.
Qed.

Lemma get_firstn (l : list num) (n : nat) (j : Z) :
  0 <= j < Z.of_nat n -> get (firstn n l) j = get l j.
Proof.
  intros [H0 Hn]. unfold get.
  destruct (j <? 0) eqn:E; [reflexivity|].
  rewrite nth_firstn.
  destruct (Z.to_nat j <? n)%nat eqn:B; [reflexivity|].
  apply Nat.ltb_ge in B. lia.
Qed.

Lemma mapi_from_firstn {A B} (f g : A -> Z -> B) (l : list A) (i : Z)
  (n : nat) :
  (forall x j, i <= j < i + Z.of_nat n -> f x j = g x j) ->
  mapi_from f i (firstn n l) = firstn n (mapi_from g i l).
Proof.
  revert i n. induction l as [|x l IH]; intros i [|n] H; simpl;
    try reflexivity.
  rewrite (H x i) by lia. f_equal. apply IH. intros y j Hj. apply H. lia.
Qed.

(** X14. The EMA and the MACD do not look ahead: computed on the first [n]
    closes, the EMA and the three lines of the MACD are the first [n]
    values of what they are on all the closes. *)
Theorem calculateMACD_prefix (closes : list num)
  (fastPeriod slowPeriod signalPeriod : Z) (n : nat) :
  (1 <= n)%nat ->
  (forall period,
      calculateEMA (firstn n closes) period
      = firstn n (calculateEMA closes period)) /\
  let m := calculateMACD closes fastPeriod slowPeriod signalPeriod in
  let m' := calculateMACD (firstn n closes) fastPeriod slowPeriod
              signalPeriod in
  macdLine m' = firstn n (macdLine m) /\
  signalLine m' = firstn n (signalLine m) /\
  histogram m' = firstn n (histogram m).
Proof.
  intro Hn. split; [intro period; now apply calculateEMA_firstn|].
  cbv zeta. unfold calculateMACD. cbn [macdLine signalLine histogram].
  rewrite !(calculateEMA_firstn closes) by exact Hn.
  set (emaFast := calculateEMA closes fastPeriod).
  set (emaSlow := calculateEMA closes slowPeriod).
  assert (L : mapi (fun fast i => num_sub fast (get (firstn n emaSlow) i))
                   (firstn n emaFast)
              = firstn n (mapi (fun fast i => num_sub fast (get emaSlow i))
                               emaFast)).
  { unfold mapi. apply mapi_from_firstn. intros x j Hj.
    now rewrite get_firstn by lia. }
  rewrite L. set (line := mapi _ emaFast).
  rewrite (calculateEMA_firstn line) by exact Hn.
  repeat split. unfold mapi. apply mapi_from_firstn. intros x j Hj.
  now rewrite get_firstn by lia.
Qed.

Lemma calculateMACD_prefix_witness :
  let closes := [lit 44; lit 45; lit 43; lit 46] in
  (1 <= 2)%nat /\
  (forall period,
      calculateEMA (firstn 2 closes) period
      = firstn 2 (calculateEMA closes period)) /\
  let m := calculateMACD closes MACD_fastPeriod MACD_slowPeriod
             MACD_signalPeriod in
  let m' := calculateMACD (firstn 2 closes) MACD_fastPeriod MACD_slowPeriod
              MACD_signalPeriod in
  macdLine m' = firstn 2 (macdLine m) /\
  signalLine m' = firstn 2 (signalLine m) /\
  histogram m' = firstn 2 (histogram m).
Proof.
  intro closes. split; [lia|].
  apply (calculateMACD_prefix closes MACD_fastPeriod MACD_slowPeriod
           MACD_signalPeriod 2). lia.
Defined.

End NoLookAhead.

(* ===================================================================== *)
(** ** Further facts about the performance metrics *)
(* ===================================================================== *)

Section MetricCards.
Import PerformanceMetrics.
Local Open Scope Z_scope.

(** X15. The colour of a metric card and its level go together, for every
    label and every value: green with "Excellent", cyan with "Good", red
    with "Needs Improvement", and white with "N/A", which is what a label
    other than the four metrics gets. *)
Theorem colour_follows_level (label : string) (value : jsval) :
  (getPerformanceLevel label value = "Excellent"%string
   <-> getMetricColor label value = "text-[#00ff9f]"%string) /\
  (getPerformanceLevel label value = "Good"%string
   <-> getMetricColor label value = "text-[#00fff2]"%string) /\
  (getPerformanceLevel label value = "Needs Improvement"%string
   <-> getMetricColor label value = "text-[#ff4444]"%string) /\
  (getPerformanceLevel label value = "N/A"%string
   <-> getMetricColor label value = "text-white"%string) /\
  (getPerformanceLevel label value = "N/A"%string
   <-> (label <> "RMSE" /\ label <> "MAE" /\ label <> "MAPE"
        /\ label <> "Directional Accuracy")%string).
Proof.
  unfold getPerformanceLevel, getMetricColor.
  destruct (String.eqb label "RMSE") eqn:E1;
    [apply String.eqb_eq in E1 | apply String.eqb_neq in E1];
  (destruct (String.eqb label "MAE") eqn:E2;
    [apply String.eqb_eq in E2 | apply String.eqb_neq in E2]);
  (destruct (String.eqb label "MAPE") eqn:E3;
    [apply String.eqb_eq in E3 | apply String.eqb_neq in E3]);
  (destruct (String.eqb label "Directional Accuracy") eqn:E4;
    [apply String.eqb_eq in E4 | apply String.eqb_neq in E4]);
  destruct (js_lt value 2), (js_lt value 5), (js_lt value (3 # 2)),
    (js_lt value 3), (js_gt value 65), (js_gt value 55);
  repeat split; intros; try reflexivity; try discriminate;
    try assumption; try tauto; try congruence.
Qed.

(** X16. Past its guard the overall score adds up the levels shown on the
    four metric cards: 25 for each "Excellent", 15 for each "Good" and 5
    for each "Needs Improvement". *)
Theorem score_adds_levels (m : metrics) :
  truthy (rmse m) && truthy (mae m) && truthy (mape m)
    && truthy (directional_accuracy m) = true ->
  calculateOverallScore m
  = Some (level_points (getPerformanceLevel "RMSE" (rmse m))
          + level_points (getPerformanceLevel "MAE" (mae m))
          + level_points (getPerformanceLevel "MAPE" (mape m))
          + level_points (getPerformanceLevel "Directional Accuracy"
                            (directional_accuracy m))).
Proof.
  intro H. unfold calculateOverallScore.
  apply andb_prop in H as [H Hd]. apply andb_prop in H as [H Hc].
  apply andb_prop in H as [Ha Hb].
  rewrite Ha, Hb, Hc, Hd. cbn [negb orb].
  unfold getPerformanceLevel.
  cbn [String.eqb Ascii.eqb Bool.eqb andb].
  destruct (js_lt (rmse m) 2), (js_lt (rmse m) 5),
    (js_lt (mae m) (3 # 2)), (js_lt (mae m) 3),
    (js_lt (mape m) 2), (js_lt (mape m) 5),
    (js_gt (directional_accuracy m) 65), (js_gt (directional_accuracy m) 55);
    vm_compute; reflexivity.
Qed.

Lemma score_adds_levels_witness :
  let m := {| rmse := Num (Fin (1 # 20)); mae := Num (Fin (3 # 100));
              mape := Num (Fin (5 # 2));
              directional_accuracy := Num (Fin 85) |} in
  truthy (rmse m) && truthy (mae m) && truthy (mape m)
    && truthy (directional_accuracy m) = true /\
  calculateOverallScore m
  = Some (level_points (getPerformanceLevel "RMSE" (rmse m))
          + level_points (getPerformanceLevel "MAE" (mae m))
          + level_points (getPerformanceLevel "MAPE" (mape m))
          + level_points (getPerformanceLevel "Directional Accuracy"
                            (directional_accuracy m))).
Proof.
  intro m. split; [reflexivity|]. apply (score_adds_levels m). reflexivity.
Defined.

End MetricCards.

(* ===================================================================== *)
(** ** The rows of the indicator charts *)
(* ===================================================================== *)

Section ChartRows.
Import TechnicalIndicators.
Import CandlestickChart.
Local Open Scope Z_scope.

Lemma get_val_in (l : list num) (i : Z) :
  0 <= i < len l -> get_val l i = Num (get l i).
Proof.
  intros [H0 Hl]. unfold get_val, get.
  destruct (i <? 0) eqn:E; [apply Z.ltb_lt in E; lia|].
  unfold len in Hl.
  rewrite (nth_error_nth' l NaN) by lia. reflexivity.
Qed.

Lemma get_val_out (l : list num) (i : Z) :
  len l <= i -> get_val l i = Undefined.
Proof.
  intro H. unfold get_val.
  destruct (i <? 0) eqn:E; [reflexivity|].
  destruct (nth_error l (Z.to_nat i)) eqn:N; [|reflexivity].
  assert (nth_error l (Z.to_nat i) <> None) by congruence.
  apply nth_error_Some in H0. unfold len in H. lia.
Qed.

(** What [x || null] shows of a sample: [null] for a zero and for [NaN]. *)
Lemma js_or_null (s : num) :
  js_or (Num s) Null = Null <-> (s = NaN \/ exists q, s = Fin q /\ (q == 0)%Q).
Proof.
  unfold js_or, truthy. destruct s as [q| | |].
  - destruct (Qeq_bool q 0) eqn:E; cbn [negb]; split.
    + intros _. right. exists q. split; [reflexivity|].
      now apply Qeq_bool_eq.
    + reflexivity.
    + discriminate.
    + intros [C|(q' & C & Z)]; [discriminate|]. injection C as <-.
      apply Qeq_eq_bool in Z. congruence.
  - split; [discriminate|]. intros [C|(q & C & _)]; discriminate.
  - split; [discriminate|]. intros [C|(q & C & _)]; discriminate.
  - split; [now left | reflexivity].
Qed.

Lemma slice_tail_nth_error {A} (l : list A) (i : Z) (a : Z) :
  0 <= a -> 0 <= i < len l - a ->
  exists d, nth_error l (Z.to_nat (i + a)) = Some d /\
            nth_error (slice l a (len l)) (Z.to_nat i) = Some d.
Proof.
  intros Ha Hi. destruct l as [|d0 l0] eqn:El.
  { unfold len in Hi. simpl in Hi. lia. }
  rewrite <- El in *. clear El l0.
  exists (nth (Z.to_nat (i + a)) l d0). split.
  - apply nth_error_nth'. unfold len in Hi. lia.
  - pose proof (slice_length l a (len l)) as L.
    rewrite (nth_error_nth' _ d0) by (unfold len in *; lia).
    rewrite slice_nth by lia. f_equal. f_equal. lia.
Qed.

(** X17. On at least twenty bars the panel computes its indicators without
    throwing. The RSI has [len - 14] samples, the stochastic oscillator
    [len - 13], the lines of the MACD [len] and the Bollinger bands
    [len - 19]; the chart has [len - 19] rows. Row [i] has the timestamp
    and the close of bar [i + 19], and of every indicator the sample at
    index [i], counted from the start of that indicator's own array, with
    a zero or a [NaN] sample replaced by [null]. *)
Theorem calculateIndicators_rows (sqrtQ : Q -> Q)
  (priceData : list PricePoint) :
  20 <= len priceData ->
  exists ind,
    IndicatorPanel.calculateIndicators sqrtQ priceData = Ok (Some ind) /\
    len (IndicatorPanel.rsi ind) = len priceData - 14 /\
    len (IndicatorPanel.stochastic ind) = len priceData - 13 /\
    len (macdLine (IndicatorPanel.macd ind)) = len priceData /\
    len (signalLine (IndicatorPanel.macd ind)) = len priceData /\
    len (histogram (IndicatorPanel.macd ind)) = len priceData /\
    len (sma (IndicatorPanel.bollinger ind)) = len priceData - 19 /\
    len (upperBand (IndicatorPanel.bollinger ind)) = len priceData - 19 /\
    len (lowerBand (IndicatorPanel.bollinger ind)) = len priceData - 19 /\
    len (IndicatorPanel.chartData ind) = len priceData - 19 /\
    forall i, 0 <= i < len priceData - 19 ->
      exists r d,
        nth_error (IndicatorPanel.chartData ind) (Z.to_nat i) = Some r /\
        nth_error priceData (Z.to_nat (i + 19)) = Some d /\
        IndicatorPanel.ChartRow.timestamp r = date d /\
        IndicatorPanel.ChartRow.price r = close_price d /\
        IndicatorPanel.ChartRow.volume r = js_or (volume d) (Num (lit 0)) /\
        IndicatorPanel.ChartRow.rsi r
        = js_or (Num (get (IndicatorPanel.rsi ind) i)) Null /\
        IndicatorPanel.ChartRow.stochastic r
        = js_or (Num (get (IndicatorPanel.stochastic ind) i)) Null /\
        IndicatorPanel.ChartRow.macd r
        = js_or (Num (get (macdLine (IndicatorPanel.macd ind)) i)) Null /\
        IndicatorPanel.ChartRow.signal r
        = js_or (Num (get (signalLine (IndicatorPanel.macd ind)) i)) Null /\
        IndicatorPanel.ChartRow.histogram r
        = js_or (Num (get (histogram (IndicatorPanel.macd ind)) i)) Null /\
        IndicatorPanel.ChartRow.bbMiddle r
        = js_or (Num (get (sma (IndicatorPanel.bollinger ind)) i)) Null /\
        IndicatorPanel.ChartRow.bbUpper r
        = js_or (Num (get (upperBand (IndicatorPanel.bollinger ind)) i)) Null /\
        IndicatorPanel.ChartRow.bbLower r
        = js_or (Num (get (lowerBand (IndicatorPanel.bollinger ind)) i)) Null /\
        (IndicatorPanel.ChartRow.rsi r = Null <->
         (get (IndicatorPanel.rsi ind) i = NaN \/
          exists q, get (IndicatorPanel.rsi ind) i = Fin q /\ (q == 0)%Q)).
Proof.
  intro Hlen. unfold IndicatorPanel.calculateIndicators.
  destruct (len priceData <? 20) eqn:G; [apply Z.ltb_lt in G; lia|].
  cbv zeta.
  destruct (calculateRSI_total (map close_price priceData) RSI_period)
    as (rsi & Er & Lr); [unfold RSI_period; lia|].
  destruct (calculateBollingerBands_total sqrtQ (map close_price priceData)
              Bollinger_period Bollinger_stdDev)
    as (b & Eb & Ls & Lu & Ll); [unfold Bollinger_period; lia|].
  rewrite Er. cbn [bind]. rewrite Eb. cbn [bind].
  eexists. split; [reflexivity|].
  cbn [IndicatorPanel.rsi IndicatorPanel.stochastic IndicatorPanel.macd
       IndicatorPanel.bollinger IndicatorPanel.chartData].
  rewrite len_map in Lr, Ls, Lu, Ll.
  unfold RSI_period in Lr. unfold Bollinger_period in Ls, Lu, Ll.
  assert (Lst : len (calculateStochastic (map high_price priceData)
                       (map low_price priceData) (map close_price priceData)
                       Stochastic_period) = len priceData - 13).
  { unfold calculateStochastic, Stochastic_period.
    rewrite !len_map. rewrite len_range by lia. lia. }
  assert (Hne : map close_price priceData <> []).
  { apply len_nonempty. rewrite len_map. lia. }
  destruct (calculateMACD_len (map close_price priceData) MACD_fastPeriod
              MACD_slowPeriod MACD_signalPeriod Hne) as (Lm & Lg & Lh).
  rewrite len_map in Lm, Lg, Lh.
  set (m := calculateMACD (map close_price priceData) MACD_fastPeriod
              MACD_slowPeriod MACD_signalPeriod) in *.
  set (st := calculateStochastic (map high_price priceData)
               (map low_price priceData) (map close_price priceData)
               Stochastic_period) in *.
  assert (Lc : len (IndicatorPanel.prepareChartData priceData rsi m b st)
               = len priceData - 19).
  { unfold IndicatorPanel.prepareChartData. rewrite len_map.
    unfold len at 1. rewrite entries_length. fold (len (slice priceData 19
      (len priceData))). rewrite slice_length by lia. reflexivity. }
  repeat (split; [lia|]).
  intros i Hi.
  destruct (slice_tail_nth_error priceData i 19) as (d & Nd & Ns);
    [lia | lia |].
  apply entries_nth in Ns.
  unfold IndicatorPanel.prepareChartData.
  rewrite nth_error_map, Ns. cbn [option_map fst snd].
  rewrite Z2Nat.id by lia.
  rewrite !get_val_in by lia.
  eexists. exists d. split; [reflexivity|]. split; [exact Nd|].
  cbn [IndicatorPanel.ChartRow.timestamp IndicatorPanel.ChartRow.price
       IndicatorPanel.ChartRow.volume IndicatorPanel.ChartRow.rsi
       IndicatorPanel.ChartRow.stochastic IndicatorPanel.ChartRow.macd
       IndicatorPanel.ChartRow.signal IndicatorPanel.ChartRow.histogram
       IndicatorPanel.ChartRow.bbMiddle IndicatorPanel.ChartRow.bbUpper
       IndicatorPanel.ChartRow.bbLower].
  repeat (split; [reflexivity|]).
  apply js_or_null.
Qed.

End ChartRows.

Section ChartRowsExample.
Import TechnicalIndicators.
Import CandlestickChart.
Local Open Scope Z_scope.

Lemma calculateIndicators_rows_witness :
  let priceData :=
    map (fun z => {| date := 1672531200000 + z * 86400000;
                     open_price := lit (100 + z);
                     high_price := lit (103 + z);
                     low_price := lit (99 + z);
                     close_price := lit (101 + z);
                     volume := Num (lit 1000) |}) (range 0 22) in
  20 <= len priceData /\
  exists ind,
    IndicatorPanel.calculateIndicators sqrt_down priceData = Ok (Some ind) /\
    len (IndicatorPanel.rsi ind) = len priceData - 14 /\
    len (IndicatorPanel.stochastic ind) = len priceData - 13 /\
    len (macdLine (IndicatorPanel.macd ind)) = len priceData /\
    len (signalLine (IndicatorPanel.macd ind)) = len priceData /\
    len (histogram (IndicatorPanel.macd ind)) = len priceData /\
    len (sma (IndicatorPanel.bollinger ind)) = len priceData - 19 /\
    len (upperBand (IndicatorPanel.bollinger ind)) = len priceData - 19 /\
    len (lowerBand (IndicatorPanel.bollinger ind)) = len priceData - 19 /\
    len (IndicatorPanel.chartData ind) = len priceData - 19 /\
    forall i, 0 <= i < len priceData - 19 ->
      exists r d,
        nth_error (IndicatorPanel.chartData ind) (Z.to_nat i) = Some r /\
        nth_error priceData (Z.to_nat (i + 19)) = Some d /\
        IndicatorPanel.ChartRow.timestamp r = date d /\
        IndicatorPanel.ChartRow.price r = close_price d /\
        IndicatorPanel.ChartRow.volume r = js_or (volume d) (Num (lit 0)) /\
        IndicatorPanel.ChartRow.rsi r
        = js_or (Num (get (IndicatorPanel.rsi ind) i)) Null /\
        IndicatorPanel.ChartRow.stochastic r
        = js_or (Num (get (IndicatorPanel.stochastic ind) i)) Null /\
        IndicatorPanel.ChartRow.macd r
        = js_or (Num (get (macdLine (IndicatorPanel.macd ind)) i)) Null /\
        IndicatorPanel.ChartRow.signal r
        = js_or (Num (get (signalLine (IndicatorPanel.macd ind)) i)) Null /\
        IndicatorPanel.ChartRow.histogram r
        = js_or (Num (get (histogram (IndicatorPanel.macd ind)) i)) Null /\
        IndicatorPanel.ChartRow.bbMiddle r
        = js_or (Num (get (sma (IndicatorPanel.bollinger ind)) i)) Null /\
        IndicatorPanel.ChartRow.bbUpper r
        = js_or (Num (get (upperBand (IndicatorPanel.bollinger ind)) i)) Null /\
        IndicatorPanel.ChartRow.bbLower r
        = js_or (Num (get (lowerBand (IndicatorPanel.bollinger ind)) i)) Null /\
        (IndicatorPanel.ChartRow.rsi r = Null <->
         (get (IndicatorPanel.rsi ind) i = NaN \/
          exists q, get (IndicatorPanel.rsi ind) i = Fin q /\ (q == 0)%Q)).
Proof.
  intro priceData. split; [vm_compute; discriminate|].
  apply (calculateIndicators_rows sqrt_down priceData).
  vm_compute. discriminate.
Defined.

End ChartRowsExample.

Section FalsyMetric.
Import PerformanceMetrics.
Local Open Scope Z_scope.

Lemma falsy_cases (v : jsval) :
  truthy v = false ->
  ToNumber v = NaN \/ exists q, ToNumber v = Fin q /\ (q == 0)%Q.
Proof.
  destruct v as [| |[q| | |]]; cbn [truthy ToNumber]; intro H;
    try discriminate; try (now left).
  - right. exists 0%Q. split; reflexivity.
  - right. exists q. split; [reflexivity|].
    apply Qeq_bool_eq. now destruct (Qeq_bool q 0).
Qed.

(** X18. The card of a falsy metric, for which the overall score is not
    shown. When the value reads as [NaN] ([undefined] or [NaN]) the four
    cards rate it "Needs Improvement"; when it reads as zero ([null] or 0)
    the cards of the three error metrics rate it "Excellent" and the card
    of the directional accuracy "Needs Improvement". *)
Theorem falsy_metric_level (m : metrics) (label : string) (v : jsval) :
  In (label, v) [("RMSE"%string, rmse m); ("MAE"%string, mae m);
                 ("MAPE"%string, mape m);
                 ("Directional Accuracy"%string, directional_accuracy m)] ->
  truthy v = false ->
  calculateOverallScore m = None /\
  (ToNumber v = NaN ->
   getPerformanceLevel label v = "Needs Improvement"%string) /\
  (ToNumber v <> NaN ->
   getPerformanceLevel label v
   = if String.eqb label "Directional Accuracy"
     then "Needs Improvement"%string else "Excellent"%string).
Proof.
  intros Hin Hf. split.
  - unfold calculateOverallScore.
    cbn [In] in Hin.
    destruct Hin as [E|[E|[E|[E|[]]]]]; injection E as _ <-; rewrite Hf;
      cbn [negb orb]; rewrite ?orb_true_r; reflexivity.
  - assert (L : In label ["RMSE"; "MAE"; "MAPE"; "Directional Accuracy"]%string).
    { cbn [In] in *.
      destruct Hin as [E|[E|[E|[E|[]]]]]; injection E as <- _; tauto. }
    clear Hin. apply falsy_cases in Hf.
    unfold getPerformanceLevel, js_lt, js_gt, num_gtb.
    cbn [In] in L.
    destruct L as [<-|[<-|[<-|[<-|[]]]]];
      cbn [String.eqb Ascii.eqb Bool.eqb andb];
      (split; [intros ->; reflexivity|]); intro Hn;
      (destruct Hf as [C|(q & -> & Z)]; [contradiction|]);
      cbn [num_ltb].
    + assert (C : (q ?= 2)%Q = Lt) by (apply Qlt_alt; rewrite Z; reflexivity).
      now rewrite C.
    + assert (C : (q ?= 3 # 2)%Q = Lt)
        by (apply Qlt_alt; rewrite Z; reflexivity).
      now rewrite C.
    + assert (C : (q ?= 2)%Q = Lt) by (apply Qlt_alt; rewrite Z; reflexivity).
      now rewrite C.
    + assert (C : (65 ?= q)%Q = Gt) by (apply Qgt_alt; rewrite Z; reflexivity).
      assert (C' : (55 ?= q)%Q = Gt)
        by (apply Qgt_alt; rewrite Z; reflexivity).
      now rewrite C, C'.
Qed.

Lemma falsy_metric_level_witness :
  let m := {| rmse := Null; mae := Num (Fin (3 # 100));
              mape := Num (Fin (5 # 2));
              directional_accuracy := Num (Fin 85) |} in
  In ("RMSE"%string, Null)
     [("RMSE"%string, rmse m); ("MAE"%string, mae m);
      ("MAPE"%string, mape m);
      ("Directional Accuracy"%string, directional_accuracy m)] /\
  truthy Null = false /\
  calculateOverallScore m = None /\
  (ToNumber Null = NaN ->
   getPerformanceLevel "RMSE" Null = "Needs Improvement"%string) /\
  (ToNumber Null <> NaN ->
   getPerformanceLevel "RMSE" Null
   = if String.eqb "RMSE" "Directional Accuracy"
     then "Needs Improvement"%string else "Excellent"%string).
Proof.
  intro m. split; [left; reflexivity|]. split; [reflexivity|].
  apply (falsy_metric_level m "RMSE" Null); [left; reflexivity | reflexivity].
Defined.

End FalsyMetric.
